(** * Dodge: the frame loop of src/main.cpp, embedded and verified

    The game keeps a player rectangle, ten falling enemies, a time-based
    score and a best score.  Every frame [main] runs one UPDATE block that
    depends on the current [GameState]; this file embeds that block, the
    function [ResetGame] and the weather bridge [SetWeather] as Rocq
    functions and proves properties of them.

    Conventions of the embedding:
    - C++ [float] is IEEE-754 binary32.  It is modelled bit-exactly with the
      Standard Library's [spec_float] at precision 24 and maximal exponent
      128, one rounding per source operation (no contraction, no excess
      precision), which is what the WebAssembly and SSE targets do.
    - C++ [int] is modelled by [Z]; every integer the code computes on the
      inputs considered below is far inside the 32-bit range.
    - raylib is external to the repository.  [GetRandomValue] is modelled as
      an oracle: a generator state holds an arbitrary sequence of raw draws
      and a cursor, and a call reduces the next raw draw into the requested
      closed range, as raylib does.  [CheckCollisionRecs] is raylib's
      rectangle overlap test.  Key states and the frame time are inputs of
      the frame function.
    - Drawing does not change any of the modelled variables and is left out,
      and so is the loop condition [WindowShouldClose]: the embedding is of
      the UPDATE block, run once per frame. *)

From Stdlib Require Import ZArith List Bool Lia QArith Qpower Qabs.
From Stdlib Require Import Floats.SpecFloat.
From Stdlib Require String.
Import ListNotations.
Local Open Scope Z_scope.

(* ------------------------------------------------------------------------- *)
(** ** binary32 arithmetic *)
(* ------------------------------------------------------------------------- *)

Module F32.

Definition prec : Z := 24.
Definition emax : Z := 128.

Definition float := spec_float.

(** Conversion of an [int] to [float]: round to nearest even. *)
Definition of_int (z : Z) : float := binary_normalize prec emax z 0 false.

Definition add : float -> float -> float := SFadd prec emax.
Definition sub : float -> float -> float := SFsub prec emax.
Definition mul : float -> float -> float := SFmul prec emax.
Definition div : float -> float -> float := SFdiv prec emax.
Definition sqrtf : float -> float := SFsqrt prec emax.

Definition ltb (a b : float) : bool := SFltb a b.
Definition gtb (a b : float) : bool := SFltb b a.
Definition leb (a b : float) : bool := SFleb a b.
Definition eqb (a b : float) : bool := SFeqb a b.
(** C++ [a != b]: true also when one side is a NaN. *)
Definition neqb (a b : float) : bool := negb (SFeqb a b).

(** A finite number: a zero or a finite float in canonical form. *)
Definition finite (f : float) : bool :=
  match f with
  | S754_zero _ => true
  | S754_finite _ m e => bounded prec emax m e
  | _ => false
  end.

Definition is_nan (f : float) : bool :=
  match f with S754_nan => true | _ => false end.

Definition is_zero (f : float) : bool :=
  match f with S754_zero _ => true | _ => false end.

(** The integer [m * 2^e] rounded toward zero and toward minus infinity
    ([Z.shiftl] by a negative amount is a flooring right shift). *)
Definition trunc (f : float) : Z :=
  match f with
  | S754_finite s m e => cond_Zopp s (Z.shiftl (Zpos m) e)
  | _ => 0
  end.

Definition floor (f : float) : Z :=
  match f with
  | S754_finite s m e => Z.shiftl (cond_Zopp s (Zpos m)) e
  | _ => 0
  end.

Definition INT_MIN : Z := - 2 ^ 31.
Definition INT_MAX : Z := 2 ^ 31 - 1.

(** The conversion [(int)f] is defined when [f] is a number whose
    truncation fits an [int]. *)
Definition int_representable (f : float) : bool :=
  match f with
  | S754_zero _ => true
  | S754_finite _ _ _ => (INT_MIN <=? trunc f) && (trunc f <=? INT_MAX)
  | _ => false
  end.

(** [(int)f]: truncation toward zero.  Outside [int_representable] the
    C++ conversion is undefined; the model returns what the x86 conversion
    instruction returns there, [INT_MIN]. *)
Definition to_int (f : float) : Z :=
  if int_representable f then trunc f else INT_MIN.

(** The exact rational value of a number (0 for infinities and NaN). *)
Definition to_Q (f : float) : Q :=
  match f with
  | S754_finite s m e => (inject_Z (cond_Zopp s (Zpos m)) * Qpower 2 e)%Q
  | _ => 0%Q
  end.

(** *** Vocabulary of the rounding lemmas *)

(** A value that is not a NaN and is in canonical form (a zero, an infinity
    or a canonical finite float). *)
Definition number (f : float) : bool :=
  valid_binary prec emax f && negb (is_nan f).

(** [lo <= f <= hi] for integer bounds, with the float comparison. *)
Definition between (lo hi : Z) (f : float) : bool :=
  leb (of_int lo) f && leb f (of_int hi).

(** The second half of [binary_round_aux]: renormalise the rounded mantissa
    and detect overflow. *)
Definition finish (s : bool) (m1 e1 : Z) : float :=
  let '(mrs, e) := shr_fexp prec emax m1 e1 loc_Exact in
  match shr_m mrs with
  | Z0 => S754_zero s
  | Zpos m => if e <=? emax - prec then S754_finite s m e else S754_infinity s
  | Zneg _ => S754_nan
  end.

(** What rounding the integer quotient [q] at exponent [e1] can return. *)
Definition round_result (s : bool) (q e1 : Z) (r : float) : Prop :=
  (r = S754_zero s /\ q = 0)
  \/ (r = S754_infinity s /\ emax - prec <= e1)
  \/ exists m e, r = S754_finite s m e /\ bounded prec emax m e = true /\
       ((e = e1 /\ q <= Zpos m <= q + 1) \/
        (e = e1 + 1 /\ Zpos m = 2 ^ 23 /\ q + 1 = 2 ^ 24)).

(** [M * 2^E] expressed in units of [2^e1], rounded down. *)
Definition scaled (M E e1 : Z) : Z :=
  if E <=? e1 then M / 2 ^ (e1 - E) else M * 2 ^ (E - e1).

(** [P] holds on the [n] integers from [lo] upwards. *)
Fixpoint all_from (P : Z -> bool) (lo : Z) (n : nat) : bool :=
  match n with
  | O => true
  | S n' => P lo && all_from P (lo + 1) n'
  end.

End F32.

Definition float : Type := F32.float.

(* ------------------------------------------------------------------------- *)
(** ** raylib: data types and the two primitives the update block calls *)
(* ------------------------------------------------------------------------- *)

Record Rectangle := mkRectangle {
  x : float;
  y : float;
  width : float;
  height : float
}.

Record Vector2 := mkVector2 {
  vx : float;
  vy : float
}.

(** Generator state: the raw draws still to come and how many were taken. *)
Record Rng := mkRng {
  draws : nat -> Z;
  cursor : nat
}.

(** Computations that draw random values thread the generator state. *)
Definition Rand (A : Type) : Type := Rng -> A * Rng.

Definition ret {A : Type} (a : A) : Rand A := fun g => (a, g).

Definition bind {A B : Type} (c : Rand A) (k : A -> Rand B) : Rand B :=
  fun g => let (a, g') := c g in k a g'.

Notation "x <- c ;; k" := (bind c (fun x => k))
  (at level 61, c at next level, right associativity).

(** raylib's [GetRandomValue(min, max)]: swaps the bounds when they are
    reversed and reduces a raw draw modulo the size of the range. *)
Definition GetRandomValue (min max : Z) : Rand Z :=
  fun g =>
    let lo := Z.min min max in
    let hi := Z.max min max in
    (lo + (draws g (cursor g)) mod (hi - lo + 1),
     mkRng (draws g) (S (cursor g))).

(** raylib's [CheckCollisionRecs]. *)
Definition CheckCollisionRecs (rec1 rec2 : Rectangle) : bool :=
  (F32.ltb (x rec1) (F32.add (x rec2) (width rec2))
   && F32.gtb (F32.add (x rec1) (width rec1)) (x rec2))
  && (F32.ltb (y rec1) (F32.add (y rec2) (height rec2))
      && F32.gtb (F32.add (y rec1) (height rec1)) (y rec2)).

(* ------------------------------------------------------------------------- *)
(** ** Data types of main.cpp *)
(* ------------------------------------------------------------------------- *)

(** [enum class WeatherKind { SUNNY = 0, CLOUDY = 1, RAINY = 2 }].  The
    enumeration has underlying type [int] and [SetWeather] casts an arbitrary
    [int] into it, so the global holds any integer. *)
Definition WeatherKind := Z.
Definition SUNNY : WeatherKind := 0.
Definition CLOUDY : WeatherKind := 1.
Definition RAINY : WeatherKind := 2.

Record Player := mkPlayer {
  rect : Rectangle;
  speed : float
}.

Record Enemy := mkEnemy {
  erect : Rectangle;
  speedY : float;
  kind : Z
}.

Inductive GameState := MENU | PLAYING | GAME_OVER.

Definition SCREEN_W : Z := 800.
Definition SCREEN_H : Z := 450.
Definition ENEMY_COUNT : Z := 10.

(** The variables of [main] together with the global [gWeather]. *)
Record Game := mkGame {
  state : GameState;
  player : Player;
  enemies : list Enemy;
  score : float;
  bestScore : Z;
  gWeather : WeatherKind
}.

(** What one frame reads from the keyboard and the clock. *)
Record Input := mkInput {
  pressed_SPACE : bool;
  pressed_ENTER : bool;
  pressed_R : bool;
  pressed_ESCAPE : bool;
  pressed_F1 : bool;
  pressed_F2 : bool;
  pressed_F3 : bool;
  down_RIGHT : bool;
  down_D : bool;
  down_LEFT : bool;
  down_A : bool;
  down_DOWN : bool;
  down_S : bool;
  down_UP : bool;
  down_W : bool;
  frame_time : float
}.

(* ------------------------------------------------------------------------- *)
(** ** SetWeather and ResetGame *)
(* ------------------------------------------------------------------------- *)

(** [SetWeather(int kind) { gWeather = (WeatherKind)kind; }] *)
Definition SetWeather (k : Z) (s : Game) : Game :=
  mkGame (state s) (player s) (enemies s) (score s) (bestScore s) k.

(** The three speed formulas, shared by spawning and recycling. *)
Definition rain_speed : Rand float :=
  r <- GetRandomValue 40 180 ;; ret (F32.add (F32.of_int 180) (F32.of_int r)).
Definition cloud_speed : Rand float :=
  r <- GetRandomValue 20 80 ;; ret (F32.add (F32.of_int 100) (F32.of_int r)).
Definition sun_speed : Rand float :=
  r <- GetRandomValue 20 120 ;; ret (F32.add (F32.of_int 140) (F32.of_int r)).

(** The speed drawn for an enemy of a given kind: the [if]/[else if]/[else]
    chain of lines 208-210. *)
Definition kind_speed (k : Z) : Rand float :=
  if k =? 2 then rain_speed else if k =? 1 then cloud_speed else sun_speed.

(** One iteration of the spawning loop of [ResetGame]. *)
Definition spawn_enemy (weather : WeatherKind) : Rand Enemy :=
  let kind := weather in
  xi <- GetRandomValue 0 (SCREEN_W - 40) ;;
  yi <- GetRandomValue (- SCREEN_H) (-20) ;;
  if kind =? 2 then
    w <- GetRandomValue 3 6 ;;
    h <- GetRandomValue 14 24 ;;
    sp <- rain_speed ;;
    ret (mkEnemy (mkRectangle (F32.of_int xi) (F32.of_int yi)
                              (F32.of_int w) (F32.of_int h)) sp kind)
  else if kind =? 1 then
    w <- GetRandomValue 40 72 ;;
    h <- GetRandomValue 24 40 ;;
    sp <- cloud_speed ;;
    ret (mkEnemy (mkRectangle (F32.of_int xi) (F32.of_int yi)
                              (F32.of_int w) (F32.of_int h)) sp kind)
  else
    w <- GetRandomValue 18 30 ;;
    sp <- sun_speed ;;
    ret (mkEnemy (mkRectangle (F32.of_int xi) (F32.of_int yi)
                              (F32.of_int w) (F32.of_int w)) sp kind).

(** The loop [for (i = 0; i < enemyCount; ++i)] pushing onto the cleared
    vector. *)
Fixpoint spawn_enemies (n : nat) (weather : WeatherKind) : Rand (list Enemy) :=
  match n with
  | O => ret []
  | S n' =>
      e <- spawn_enemy weather ;;
      es <- spawn_enemies n' weather ;;
      ret (e :: es)
  end.

(** The player rectangle set by [ResetGame]:
    [{ SCREEN_W/2.0f - 18.0f, SCREEN_H - 70.0f, 36.0f, 36.0f }]. *)
Definition start_rect : Rectangle :=
  mkRectangle
    (F32.sub (F32.div (F32.of_int SCREEN_W) (F32.of_int 2)) (F32.of_int 18))
    (F32.sub (F32.of_int SCREEN_H) (F32.of_int 70))
    (F32.of_int 36) (F32.of_int 36).

(** [ResetGame(player, enemies, enemyCount, score)].  The three reference
    parameters are returned; the player's speed is not touched.  A negative
    [enemyCount] would make [reserve] throw; [main] always passes
    [ENEMY_COUNT] and the loop below runs [max 0 enemyCount] times. *)
Definition ResetGame (weather : WeatherKind) (p : Player) (enemyCount : Z)
  : Rand (Player * list Enemy * float) :=
  es <- spawn_enemies (Z.to_nat enemyCount) weather ;;
  ret (mkPlayer start_rect (speed p), es, F32.of_int 0).

(* ------------------------------------------------------------------------- *)
(** ** The UPDATE block of the main loop *)
(* ------------------------------------------------------------------------- *)

(** Lines 162-175: the direction vector from the held keys, normalised when
    it is not the zero vector. *)
Definition raw_direction (i : Input) : Vector2 :=
  let mx := F32.of_int 0 in
  let my := F32.of_int 0 in
  let mx := if down_RIGHT i || down_D i then F32.add mx (F32.of_int 1) else mx in
  let mx := if down_LEFT i || down_A i then F32.sub mx (F32.of_int 1) else mx in
  let my := if down_DOWN i || down_S i then F32.add my (F32.of_int 1) else my in
  let my := if down_UP i || down_W i then F32.sub my (F32.of_int 1) else my in
  mkVector2 mx my.

Definition normalise (move : Vector2) : Vector2 :=
  if F32.neqb (vx move) (F32.of_int 0) || F32.neqb (vy move) (F32.of_int 0)
  then
    let len := F32.sqrtf (F32.add (F32.mul (vx move) (vx move))
                                  (F32.mul (vy move) (vy move))) in
    mkVector2 (F32.div (vx move) len) (F32.div (vy move) len)
  else move.

Definition direction (i : Input) : Vector2 := normalise (raw_direction i).

(** Lines 178-180: the displacement added to the player position. *)
Definition displacement (move : Vector2) (sp dt : float) : Vector2 :=
  mkVector2 (F32.mul (F32.mul (vx move) sp) dt)
            (F32.mul (F32.mul (vy move) sp) dt).

Definition move_rect (r : Rectangle) (d : Vector2) : Rectangle :=
  mkRectangle (F32.add (x r) (vx d)) (F32.add (y r) (vy d))
              (width r) (height r).

(** Lines 183-188: the four clamping tests, in source order. *)
Definition clamp_rect (r : Rectangle) : Rectangle :=
  let rx := if F32.ltb (x r) (F32.of_int 0) then F32.of_int 0 else x r in
  let ry := if F32.ltb (y r) (F32.of_int 0) then F32.of_int 0 else y r in
  let rx := if F32.gtb (F32.add rx (width r)) (F32.of_int SCREEN_W)
            then F32.sub (F32.of_int SCREEN_W) (width r) else rx in
  let ry := if F32.gtb (F32.add ry (height r)) (F32.of_int SCREEN_H)
            then F32.sub (F32.of_int SCREEN_H) (height r) else ry in
  mkRectangle rx ry (width r) (height r).

Definition step_player (p : Player) (i : Input) : Player :=
  let d := displacement (direction i) (speed p) (frame_time i) in
  mkPlayer (clamp_rect (move_rect (rect p) d)) (speed p).

(** Lines 191-193: the debug keys, tested in this order. *)
Definition debug_weather (i : Input) (w : WeatherKind) : WeatherKind :=
  let w := if pressed_F1 i then SUNNY else w in
  let w := if pressed_F2 i then CLOUDY else w in
  if pressed_F3 i then RAINY else w.

(** Lines 204-210: the body of the recycling test. *)
Definition recycle (e : Enemy) : Rand Enemy :=
  yi <- GetRandomValue (-200) (-20) ;;
  xi <- GetRandomValue 0 (SCREEN_W - F32.to_int (width (erect e))) ;;
  sp <- kind_speed (kind e) ;;
  ret (mkEnemy (mkRectangle (F32.of_int xi) (F32.of_int yi)
                            (width (erect e)) (height (erect e)))
               sp (kind e)).

(** Line 200: the enemy falls. *)
Definition fall (dt : float) (e : Enemy) : Enemy :=
  mkEnemy (mkRectangle (x (erect e))
                       (F32.add (y (erect e)) (F32.mul (speedY e) dt))
                       (width (erect e)) (height (erect e)))
          (speedY e) (kind e).

Definition below_bottom (e : Enemy) : bool :=
  F32.gtb (y (erect e)) (F32.of_int (SCREEN_H + 10)).

(** Lines 200-211: fall, then recycle when below the bottom. *)
Definition update_enemy (dt : float) (e : Enemy) : Rand Enemy :=
  let e1 := fall dt e in
  if below_bottom e1 then recycle e1 else ret e1.

(** Lines 198-220: the loop over the enemies.  It carries the state and the
    best score, which a collision updates, and rebuilds the vector. *)
Fixpoint enemies_loop (prect : Rectangle) (dt sc : float) (es : list Enemy)
    (st : GameState) (best : Z) : Rand (list Enemy * GameState * Z) :=
  match es with
  | [] => ret ([], st, best)
  | e :: rest =>
      e' <- update_enemy dt e ;;
      let hit := CheckCollisionRecs prect (erect e') in
      let st' := if hit then GAME_OVER else st in
      let best' := if hit && (F32.to_int sc >? best) then F32.to_int sc
                   else best in
      r <- enemies_loop prect dt sc rest st' best' ;;
      let '(rest', st'', best'') := r in
      ret (e' :: rest', st'', best'')
  end.

(** The branch for [GameState::PLAYING]. *)
Definition update_playing (s : Game) (i : Input) : Rand Game :=
  let dt := frame_time i in
  let p := step_player (player s) i in
  let w := debug_weather i (gWeather s) in
  r <- enemies_loop (rect p) dt (score s) (enemies s) (state s) (bestScore s) ;;
  let '(es, st, best) := r in
  ret (mkGame st p es (F32.add (score s) (F32.mul (F32.of_int 60) dt)) best w).

(** The branch for [GameState::MENU]. *)
Definition update_menu (s : Game) (i : Input) : Rand Game :=
  if pressed_SPACE i || pressed_ENTER i then
    r <- ResetGame (gWeather s) (player s) ENEMY_COUNT ;;
    let '(p, es, sc) := r in
    ret (mkGame PLAYING p es sc (bestScore s) (gWeather s))
  else ret s.

(** The branch for [GameState::GAME_OVER]: two independent [if]s. *)
Definition update_game_over (s : Game) (i : Input) : Rand Game :=
  s1 <- (if pressed_R i then
           r <- ResetGame (gWeather s) (player s) ENEMY_COUNT ;;
           let '(p, es, sc) := r in
           ret (mkGame PLAYING p es sc (bestScore s) (gWeather s))
         else ret s) ;;
  if pressed_ESCAPE i then
    ret (mkGame MENU (player s1) (enemies s1) (score s1) (bestScore s1)
                (gWeather s1))
  else ret s1.

(** One pass through the UPDATE part of the loop body. *)
Definition update (s : Game) (i : Input) : Rand Game :=
  match state s with
  | MENU => update_menu s i
  | PLAYING => update_playing s i
  | GAME_OVER => update_game_over s i
  end.

(* ------------------------------------------------------------------------- *)
(** ** Predicates used in the statements *)
(* ------------------------------------------------------------------------- *)

(** The player as [ResetGame] and the struct initialiser leave it: a 36 by 36
    box, speed 260, and a position that is a finite number. *)
Definition player_wf (p : Player) : Prop :=
  width (rect p) = F32.of_int 36 /\ height (rect p) = F32.of_int 36 /\
  speed p = F32.of_int 260 /\
  F32.finite (x (rect p)) = true /\ F32.finite (y (rect p)) = true.

(** The box lies in [0, SCREEN_W - width] x [0, SCREEN_H - height]. *)
Definition inside_screen (r : Rectangle) : Prop :=
  F32.leb (F32.of_int 0) (x r) = true /\
  F32.leb (x r) (F32.sub (F32.of_int SCREEN_W) (width r)) = true /\
  F32.leb (F32.of_int 0) (y r) = true /\
  F32.leb (y r) (F32.sub (F32.of_int SCREEN_H) (height r)) = true.

(** The collision test of the loop, as a predicate on enemies. *)
Definition hits (prect : Rectangle) (e : Enemy) : bool :=
  CheckCollisionRecs prect (erect e).

(** The documented ranges of a rain drop. *)
Definition rain_drop (e : Enemy) : Prop :=
  F32.between 3 6 (width (erect e)) = true /\
  F32.between 14 24 (height (erect e)) = true /\
  F32.between 220 360 (speedY e) = true /\
  kind e = RAINY.

(** The documented ranges of a sun disc, with kind field [k]. *)
Definition sun_disc (k : Z) (e : Enemy) : Prop :=
  F32.between 18 30 (width (erect e)) = true /\
  height (erect e) = width (erect e) /\
  F32.between 160 260 (speedY e) = true /\
  kind e = k.

(** The documented ranges of a cloud. *)
Definition cloud (e : Enemy) : Prop :=
  F32.between 40 72 (width (erect e)) = true /\
  F32.between 24 40 (height (erect e)) = true /\
  F32.between 120 180 (speedY e) = true /\
  kind e = CLOUDY.

(** Exactly one horizontal and exactly one vertical direction is held. *)
Definition diagonal (i : Input) : bool :=
  xorb (down_RIGHT i || down_D i) (down_LEFT i || down_A i)
  && xorb (down_DOWN i || down_S i) (down_UP i || down_W i).

(** On both axes nothing is held or the two opposite keys cancel. *)
Definition no_direction (i : Input) : bool :=
  negb (xorb (down_RIGHT i || down_D i) (down_LEFT i || down_A i))
  && negb (xorb (down_DOWN i || down_S i) (down_UP i || down_W i)).

(** A positive binary32 number, normal or subnormal. *)
Definition positive_time (dt : float) : bool :=
  match dt with
  | S754_finite false m e => bounded F32.prec F32.emax m e
  | _ => false
  end.

(** A positive normal binary32 number: the mantissa has 24 digits. *)
Definition normal_time (dt : float) : bool :=
  match dt with
  | S754_finite false m e =>
      bounded F32.prec F32.emax m e && (Zpos (digits2_pos m) =? 24)
  | _ => false
  end.

(** The exact squared length of a vector. *)
Definition sq_norm (v : Vector2) : Q :=
  (F32.to_Q (vx v) * F32.to_Q (vx v) + F32.to_Q (vy v) * F32.to_Q (vy v))%Q.

(** [1.0f / sqrtf(2.0f)], which is [11863283 * 2^-24 = 0.70710677]. *)
Definition inv_sqrt2 : float := F32.div (F32.of_int 1) (F32.sqrtf (F32.of_int 2)).

(* ------------------------------------------------------------------------- *)
(** ** Concrete inputs used by the examples *)
(* ------------------------------------------------------------------------- *)

(** A generator whose raw draws are all [v]. *)
Definition constant_rng (v : Z) : Rng := mkRng (fun _ => v) O.

(** A generator that replays a list of raw draws and then yields zeros. *)
Definition replay (l : list Z) : Rng := mkRng (fun n => nth n l 0) O.

Definition fresh_player : Player := mkPlayer start_rect (F32.of_int 260).

(** Arrow keys held as given, nothing pressed. *)
Definition held (r l d u : bool) (dt : float) : Input :=
  mkInput false false false false false false false
          r false l false d false u false dt.

Definition press_SPACE : Input :=
  mkInput true false false false false false false
          false false false false false false false false (F32.of_int 0).

Definition press_R : Input :=
  mkInput false false true false false false false
          false false false false false false false false (F32.of_int 0).

Definition press_R_and_ESCAPE : Input :=
  mkInput false false true true false false false
          false false false false false false false false (F32.of_int 0).

(** [main] before the loop: menu, zero-initialised player with speed 260,
    first [ResetGame], best score 0, default weather. *)
Definition initial : Rand Game :=
  r <- ResetGame SUNNY (mkPlayer (mkRectangle (F32.of_int 0) (F32.of_int 0)
                                   (F32.of_int 0) (F32.of_int 0))
                                 (F32.of_int 260)) ENEMY_COUNT ;;
  let '(p, es, sc) := r in
  ret (mkGame MENU p es sc 0 SUNNY).

(** A frame time of 1/64 s. *)
Definition one_64th : float := F32.div (F32.of_int 1) (F32.of_int 64).

(** A sun disc resting on the player's start position. *)
Definition blocker : Enemy :=
  mkEnemy (mkRectangle (F32.of_int 382) (F32.of_int 380)
                       (F32.of_int 20) (F32.of_int 20))
          (F32.of_int 200) SUNNY.

(** A sun disc that has fallen below the bottom of the screen. *)
Definition fallen_enemy : Enemy :=
  mkEnemy (mkRectangle (F32.of_int 100) (F32.of_int 470)
                       (F32.of_int 20) (F32.of_int 20))
          (F32.of_int 200) SUNNY.

(** A run in which [blocker] sits on the player, score 90, best score 50. *)
Definition colliding_run : Game :=
  mkGame PLAYING fresh_player [blocker] (F32.of_int 90) 50 SUNNY.

(** A finished run with score 100. *)
Definition finished_run : Game :=
  mkGame GAME_OVER fresh_player [blocker] (F32.of_int 100) 100 SUNNY.

(* ------------------------------------------------------------------------- *)
(** ** Whole runs of the main loop *)
(* ------------------------------------------------------------------------- *)

(** What happens between two passes of the loop body and during one: the
    page may have called [SetWeather] (the last call before the frame is the
    one that counts), then the UPDATE block runs on the frame's input. *)
Record Frame := mkFrame {
  weather_call : option Z;
  frame_input : Input
}.

Definition frame (s : Game) (f : Frame) : Rand Game :=
  update (match weather_call f with
          | Some k => SetWeather k s
          | None => s
          end) (frame_input f).

(** The loop run for the given frames (it ends when the window closes). *)
Fixpoint run (s : Game) (fs : list Frame) : Rand Game :=
  match fs with
  | [] => ret s
  | f :: rest => s' <- frame s f ;; run s' rest
  end.

(** [main]: the set-up followed by the loop. *)
Definition main_run (fs : list Frame) : Rand Game :=
  s0 <- initial ;; run s0 fs.

(* ------------------------------------------------------------------------- *)
(** ** Predicates on the states of a run *)
(* ------------------------------------------------------------------------- *)

(** A number that is not negative: a zero, a canonical positive float or
    plus infinity. *)
Definition nonneg (f : float) : bool := F32.number f && F32.leb (F32.of_int 0) f.

(** The integral sizes [ResetGame] draws for each kind; every kind other
    than 1 and 2 is drawn as a sun. *)
Definition kind_sizes (k w h : Z) : Prop :=
  if k =? 2 then 3 <= w <= 6 /\ 14 <= h <= 24
  else if k =? 1 then 40 <= w <= 72 /\ 24 <= h <= 40
  else 18 <= w <= 30 /\ h = w.

(** The speed range of each kind. *)
Definition kind_speed_range_ok (k : Z) (sp : float) : bool :=
  if k =? 2 then F32.between 220 360 sp
  else if k =? 1 then F32.between 120 180 sp
  else F32.between 160 260 sp.

(** An enemy as spawning and recycling leave it: integral x, the integral
    size of its kind and a speed in the range of its kind. *)
Definition well_shaped (e : Enemy) : Prop :=
  exists xi w h,
    x (erect e) = F32.of_int xi /\
    0 <= xi <= Z.max (SCREEN_W - 40) (SCREEN_W - w) /\
    width (erect e) = F32.of_int w /\
    height (erect e) = F32.of_int h /\
    kind_sizes (kind e) w h /\
    kind_speed_range_ok (kind e) (speedY e) = true.

(** An enemy as [ResetGame] spawns it under the weather value [w]. *)
Definition spawned_as (w : WeatherKind) (e : Enemy) : Prop :=
  kind e = w /\
  exists xi yi wd h,
    erect e = mkRectangle (F32.of_int xi) (F32.of_int yi)
                          (F32.of_int wd) (F32.of_int h) /\
    0 <= xi <= SCREEN_W - 40 /\ - SCREEN_H <= yi <= -20 /\
    kind_sizes w wd h /\
    kind_speed_range_ok w (speedY e) = true.

(** Calls of [GetRandomValue] per spawned enemy. *)
Definition draws_per_enemy (w : WeatherKind) : nat :=
  if (w =? 2) || (w =? 1) then 5%nat else 4%nat.

Definition enemies_ok (s : Game) : Prop :=
  length (enemies s) = 10%nat /\ Forall well_shaped (enemies s).

Definition best_ok (s : Game) : Prop := 0 <= bestScore s <= F32.INT_MAX.

Definition player_ok (s : Game) : Prop :=
  player_wf (player s) /\ inside_screen (rect (player s)).

Definition score_ok (s : Game) : Prop := nonneg (score s) = true.

Definition finite_time (i : Input) : Prop := F32.finite (frame_time i) = true.

Definition forward_time (i : Input) : Prop :=
  F32.finite (frame_time i) = true /\ nonneg (frame_time i) = true.

(* ------------------------------------------------------------------------- *)
(** ** The weather label and the background *)
(* ------------------------------------------------------------------------- *)

Module Hud.
Import String.

(** [WeatherName()]: the switch on [gWeather] with its default. *)
Definition WeatherName (w : WeatherKind) : string :=
  if w =? 1 then "Cloudy"%string
  else if w =? 2 then "Rainy"%string
  else "Sunny"%string.

Record Color := mkColor { red : Z; green : Z; blue : Z; alpha : Z }.

(** Lines 248-251: the background colour chosen before drawing. *)
Definition background (w : WeatherKind) : Color :=
  if w =? 0 then mkColor 20 24 34 255
  else if w =? 1 then mkColor 35 35 45 255
  else if w =? 2 then mkColor 15 18 30 255
  else mkColor 18 18 18 255.

End Hud.

(** A run of three frames: start from the menu, then hold right and down
    for two frames of 1/64 s. *)
Definition three_frames : list Frame :=
  [mkFrame None press_SPACE;
   mkFrame None (held true false true false one_64th);
   mkFrame (Some 2) (held true false true false one_64th)].

(** A run in which the only enemy has fallen below the screen. *)
Definition clear_run : Game :=
  mkGame PLAYING fresh_player [fallen_enemy] (F32.of_int 90) 50 SUNNY.

(* ------------------------------------------------------------------------- *)
(** ** Facts about binary32 rounding *)
(* ------------------------------------------------------------------------- *)

Module F32Facts.
Import F32.

(** For binary32 the exponent of the grid at magnitude [2^e] is
    [max (e - 24) (-149)]. *)
Lemma fexp_eq e : fexp prec emax e = Z.max (e - 24) (-149).
Proof. reflexivity. Qed.

Lemma digits2_pos_size p : digits2_pos p = Pos.size p.
Proof. induction p; simpl; congruence. Qed.

(** The number of binary digits, through [Z.log2]. *)
Lemma digits2_pos_log2 p : Zpos (digits2_pos p) = Z.log2 (Zpos p) + 1.
Proof.
  rewrite digits2_pos_size. destruct p; simpl; try lia.
Qed.

(** *** Right shifts divide the mantissa *)
Lemma shr_1_m mrs : 0 <= shr_m mrs -> shr_m (shr_1 mrs) = shr_m mrs / 2.
Proof.
  destruct mrs as [m r s]; simpl. intros Hm.
  destruct m as [|p|p]; try lia; [reflexivity|].
  destruct p; simpl shr_m.
  - rewrite Pos2Z.inj_xI. apply Z.div_unique with 1; lia.
  - rewrite Pos2Z.inj_xO. apply Z.div_unique with 0; lia.
  - reflexivity.
Qed.

Lemma shr_1_nonneg mrs : 0 <= shr_m mrs -> 0 <= shr_m (shr_1 mrs).
Proof.
  intros H. rewrite shr_1_m by assumption. apply Z.div_pos; lia.
Qed.

Lemma iter_shr_1_m p : forall mrs, 0 <= shr_m mrs ->
  shr_m (iter_pos shr_1 p mrs) = shr_m mrs / 2 ^ Zpos p.
Proof.
  induction p as [p IH|p IH|]; intros mrs Hm; simpl iter_pos.
  - assert (H1 : 0 <= shr_m (shr_1 mrs)) by now apply shr_1_nonneg.
    assert (H2 : 0 <= shr_m (iter_pos shr_1 p (shr_1 mrs))).
    { rewrite IH by assumption. apply Z.div_pos; lia. }
    rewrite IH, IH, shr_1_m by assumption.
    rewrite !Z.div_div by lia.
    f_equal.
    replace (Zpos p~1) with (1 + Zpos p + Zpos p) by lia.
    rewrite !Z.pow_add_r by lia. lia.
  - assert (H2 : 0 <= shr_m (iter_pos shr_1 p mrs)).
    { rewrite IH by assumption. apply Z.div_pos; lia. }
    rewrite IH, IH by assumption.
    rewrite !Z.div_div by lia.
    f_equal.
    replace (Zpos p~0) with (Zpos p + Zpos p) by lia.
    rewrite !Z.pow_add_r by lia. lia.
  - rewrite shr_1_m by assumption. reflexivity.
Qed.


(** *** Rounding moves the truncated mantissa by at most one *)
Lemma round_nearest_even_range m l :
  m <= round_nearest_even m l <= m + 1.
Proof.
  destruct l as [|[ | | ]]; simpl; try lia.
  destruct (Z.even m); lia.
Qed.

(** The first shift of [binary_round_aux] brings [M] to the grid exponent
    and leaves the quotient [M / 2^n]. *)
Lemma shr_fexp_stage1 M E l :
  let n := fexp prec emax (Zpos (digits2_pos M) + E) - E in
  0 <= n ->
  exists mrs, shr_fexp prec emax (Zpos M) E l = (mrs, E + n)
              /\ shr_m mrs = Zpos M / 2 ^ n.
Proof.
  intros n Hn. unfold shr_fexp. simpl Zdigits2. fold n.
  destruct n as [|p|p] eqn:En; try lia.
  - eexists; split; [simpl; f_equal; lia|].
    rewrite Z.pow_0_r, Z.div_1_r. destruct l as [|[ | | ]]; reflexivity.
  - eexists; split; [reflexivity|].
    rewrite iter_shr_1_m; destruct l as [|[ | | ]]; simpl; try lia; reflexivity.
Qed.

Lemma binary_round_aux_finish s M E l mrs e1 :
  shr_fexp prec emax (Zpos M) E l = (mrs, e1) ->
  binary_round_aux prec emax s (Zpos M) E l
  = finish s (round_nearest_even (shr_m mrs) (loc_of_shr_record mrs)) e1.
Proof.
  intros H. unfold binary_round_aux, finish. rewrite H. reflexivity.
Qed.

Lemma finish_zero s e1 : finish s 0 e1 = S754_zero s.
Proof.
  unfold finish, shr_fexp, shr. simpl Zdigits2. simpl shr_record_of_loc.
  destruct (fexp prec emax (0 + e1) - e1) as [|p|p]; try reflexivity.
  rewrite iter_shr_1_m by (simpl; lia). reflexivity.
Qed.

Lemma finish_canonical s m e1 :
  fexp prec emax (Zpos (digits2_pos m) + e1) = e1 ->
  finish s (Zpos m) e1
  = if e1 <=? emax - prec then S754_finite s m e1 else S754_infinity s.
Proof.
  intros H. unfold finish, shr_fexp. simpl Zdigits2. rewrite H, Z.sub_diag.
  reflexivity.
Qed.

Lemma finish_carry s e1 :
  -149 <= e1 ->
  finish s (2 ^ 24) e1
  = if e1 + 1 <=? emax - prec then S754_finite s (2 ^ 23) (e1 + 1)
    else S754_infinity s.
Proof.
  intros H. unfold finish, shr_fexp.
  change (Zdigits2 (2 ^ 24)) with 25. rewrite fexp_eq.
  replace (Z.max (25 + e1 - 24) (-149) - e1) with 1 by lia.
  reflexivity.
Qed.

Lemma log2_div_pow2 M n : 0 < M -> 0 <= n -> 0 < M / 2 ^ n ->
  Z.log2 (M / 2 ^ n) = Z.log2 M - n.
Proof.
  intros HM Hn Hq. rewrite <- Z.shiftr_div_pow2 by assumption.
  rewrite Z.log2_shiftr by assumption.
  assert (n <= Z.log2 M); [|lia].
  destruct (Z.le_gt_cases n (Z.log2 M)) as [|Hlt]; [assumption|exfalso].
  assert (M < 2 ^ n).
  { apply Z.log2_lt_pow2; assumption. }
  rewrite Z.div_small in Hq; lia.
Qed.

Lemma div_pow2_zero M n : 0 < M -> 0 <= n -> M / 2 ^ n = 0 -> Z.log2 M < n.
Proof.
  intros HM Hn Hq.
  apply Z.log2_lt_pow2; [assumption|].
  destruct (Z.lt_ge_cases M (2 ^ n)) as [|Hge]; [assumption|exfalso].
  assert (1 <= M / 2 ^ n); [|lia].
  apply Z.div_le_lower_bound; lia.
Qed.

(** The rounded mantissa is zero, canonical at [e1], or the carry [2^24]
    which is renormalised to [2^23] at [e1 + 1]. *)
Lemma finish_round s q e1 m1 dM E :
  0 < dM ->
  e1 = fexp prec emax (dM + E) ->
  E <= e1 ->
  (q = 0 /\ dM <= e1 - E \/ 0 < q /\ Z.log2 q + 1 = dM - (e1 - E)) ->
  q <= m1 <= q + 1 ->
  round_result s q e1 (finish s m1 e1).
Proof.
  intros HdM He1 HE Hq Hm1. rewrite fexp_eq in He1.
  assert (Hcases : m1 = 0 /\ q = 0 \/
            (0 < m1 /\ fexp prec emax (Z.log2 m1 + 1 + e1) = e1) \/
            (m1 = 2 ^ 24 /\ q + 1 = 2 ^ 24)).
  { destruct Hq as [[Hq0 Hd]|[Hqpos Hlog]].
    - assert (m1 = 0 \/ m1 = 1) as [->| ->] by lia; [left; lia|right; left].
      split; [lia|]. rewrite fexp_eq. simpl Z.log2. lia.
    - right. assert (m1 = q \/ m1 = q + 1) as [->| ->] by lia.
      + left. split; [assumption|]. rewrite fexp_eq. lia.
      + destruct (Z.log2_succ_or q) as [Hs|Hs].
        * destruct (Z.log2_eq_succ_is_pow2 q Hs) as [b Hb].
          unfold Z.succ in Hs, Hb.
          assert (Hb0 : 0 <= b).
          { destruct (Z.le_gt_cases 0 b); [assumption|].
            rewrite Z.pow_neg_r in Hb; lia. }
          assert (Z.log2 (q + 1) = b).
          { rewrite Hb. apply Z.log2_pow2; assumption. }
          destruct (Z.eq_dec b 24) as [->|Hne].
          -- right. split; assumption.
          -- left. split; [lia|]. rewrite fexp_eq. lia.
        * unfold Z.succ in Hs. left. split; [lia|]. rewrite fexp_eq. lia. }
  destruct Hcases as [[-> ->]|[[Hpos Hcan]|[-> Hq1]]].
  - rewrite finish_zero. left; auto.
  - destruct m1 as [|m|m]; try lia.
    rewrite <- digits2_pos_log2 in Hcan.
    rewrite finish_canonical by assumption.
    destruct (e1 <=? emax - prec) eqn:Hle;
      [|right; left; split; [reflexivity|apply Z.leb_gt in Hle; lia]].
    right; right. exists m, e1. split; [reflexivity|]. split.
    + unfold bounded, canonical_mantissa. rewrite Hcan, Z.eqb_refl, Hle.
      reflexivity.
    + left. split; [reflexivity|lia].
  - rewrite finish_carry by lia.
    destruct (e1 + 1 <=? emax - prec) eqn:Hle;
      [|right; left; split; [reflexivity|apply Z.leb_gt in Hle; lia]].
    right; right. exists (2 ^ 23)%positive, (e1 + 1).
    split; [reflexivity|]. split.
    + unfold bounded, canonical_mantissa. rewrite Hle.
      change (Zpos (digits2_pos (2 ^ 23))) with 24. rewrite fexp_eq.
      rewrite andb_true_r. apply Z.eqb_eq. lia.
    + right. split; [reflexivity|]. split; [reflexivity|assumption].
Qed.

(** *** Characterisation of rounding

    Whenever the input exponent is not above the grid exponent,
    [binary_round_aux] returns a zero, an infinity or a canonical float whose
    mantissa is the quotient or its successor. *)
Lemma binary_round_aux_spec s M E l :
  let e1 := fexp prec emax (Zpos (digits2_pos M) + E) in
  E <= e1 ->
  round_result s (Zpos M / 2 ^ (e1 - E)) e1
               (binary_round_aux prec emax s (Zpos M) E l).
Proof.
  intros e1 HE.
  destruct (shr_fexp_stage1 M E l) as [mrs [Hs Hm]]; [fold e1; lia|].
  fold e1 in Hs, Hm.
  rewrite (binary_round_aux_finish _ _ _ _ _ _ Hs).
  replace (E + (e1 - E)) with e1 by lia.
  apply finish_round with (dM := Zpos (digits2_pos M)) (E := E);
    try reflexivity; try lia.
  - set (q := Zpos M / 2 ^ (e1 - E)).
    assert (Hq0 : 0 <= q) by (apply Z.div_pos; lia).
    destruct (Z.eq_dec q 0) as [Hz|Hnz].
    + left. split; [assumption|].
      apply div_pow2_zero in Hz; try lia. rewrite digits2_pos_log2. lia.
    + right. split; [lia|]. unfold q.
      rewrite log2_div_pow2; try lia. rewrite digits2_pos_log2. lia.
  - rewrite <- Hm. apply round_nearest_even_range.
Qed.


Lemma round_result_number s q e1 r : round_result s q e1 r -> number r = true.
Proof.
  intros [[-> _]|[[-> _]|[m [e [-> [Hb _]]]]]]; unfold number; simpl;
    try reflexivity.
  rewrite Hb. reflexivity.
Qed.

Lemma pos_iter_xO m d : Zpos (Pos.iter xO m d) = Zpos m * 2 ^ Zpos d.
Proof.
  induction d as [|d IH] using Pos.peano_ind.
  - simpl. lia.
  - rewrite Pos.iter_succ, Pos2Z.inj_xO, IH, Pos2Z.inj_succ, Z.pow_succ_r; lia.
Qed.

Lemma log2_mul_pow2 M k : 0 < M -> 0 <= k -> Z.log2 (M * 2 ^ k) = Z.log2 M + k.
Proof.
  intros HM Hk. rewrite Z.log2_mul_pow2; lia.
Qed.

(** The same for [binary_round], which first shifts left to the grid. *)
Lemma binary_round_spec s M E :
  let e1 := fexp prec emax (Zpos (digits2_pos M) + E) in
  round_result s (scaled (Zpos M) E e1) e1 (binary_round prec emax s M E).
Proof.
  intros e1. unfold binary_round, shl_align, scaled. fold e1.
  destruct (e1 - E) as [|p|p] eqn:Hd.
  - replace (E <=? e1) with true by (symmetry; apply Z.leb_le; lia).
    rewrite <- Hd. apply binary_round_aux_spec. fold e1. lia.
  - replace (E <=? e1) with true by (symmetry; apply Z.leb_le; lia).
    rewrite <- Hd. apply binary_round_aux_spec. fold e1. lia.
  - replace (E <=? e1) with false by (symmetry; apply Z.leb_gt; lia).
    replace (E - e1) with (Zpos p) by lia.
    rewrite <- pos_iter_xO.
    assert (He : fexp prec emax (Zpos (digits2_pos (Pos.iter xO M p)) + e1) = e1).
    { rewrite digits2_pos_log2, pos_iter_xO, log2_mul_pow2 by lia.
      unfold e1 at 2. rewrite digits2_pos_log2. f_equal. lia. }
    pose proof (binary_round_aux_spec s (Pos.iter xO M p) e1 loc_Exact) as H.
    cbv zeta in H. rewrite He, Z.sub_diag, Z.pow_0_r, Z.div_1_r in H.
    apply H. lia.
Qed.

Lemma binary_normalize_number z E : number (binary_normalize prec emax z E false) = true.
Proof.
  destruct z; simpl; [reflexivity| |];
    eapply round_result_number; apply binary_round_spec.
Qed.

Lemma bounded_inv m e : bounded prec emax m e = true ->
  -149 <= e <= 104 /\ Z.log2 (Zpos m) + 1 <= 24 /\
  (e = -149 \/ Z.log2 (Zpos m) + 1 = 24).
Proof.
  unfold bounded, canonical_mantissa. intros H.
  apply andb_true_iff in H. destruct H as [H1 H2].
  apply Z.eqb_eq in H1. apply Z.leb_le in H2.
  rewrite fexp_eq, digits2_pos_log2 in H1. unfold emax, prec in H2. lia.
Qed.

(** *** Sums and products of finite numbers are numbers *)
Lemma mul_number a b : finite a = true -> finite b = true -> number (mul a b) = true.
Proof.
  destruct a as [sa|sa| |sa ma ea], b as [sb|sb| |sb mb eb]; simpl;
    try discriminate; try reflexivity.
  intros Ha Hb. apply bounded_inv in Ha, Hb.
  eapply round_result_number. apply binary_round_aux_spec.
  rewrite fexp_eq, digits2_pos_log2, Pos2Z.inj_mul.
  pose proof (Z.log2_mul_below (Zpos ma) (Zpos mb)).
  pose proof (Z.log2_nonneg (Zpos ma)). pose proof (Z.log2_nonneg (Zpos mb)).
  lia.
Qed.

Lemma add_number a b : finite a = true -> number b = true -> number (add a b) = true.
Proof.
  destruct a as [sa|sa| |sa ma ea], b as [sb|sb| |sb mb eb]; simpl;
    try discriminate; try reflexivity; intros Ha Hb.
  - destruct sa, sb; reflexivity.
  - assumption.
  - unfold number; simpl. rewrite Ha. reflexivity.
  - apply binary_normalize_number.
Qed.


(** *** Adding 36 at the clamp bound

    [9437184 * 2^-18] is 36.  Let [t * 2^(k-18)] be the bound [hi] and
    [(t + c) * 2^(k-18)] be [hi + 36].  A canonical float above [hi] plus 36
    rounds to a float above [hi + 36]. *)
Lemma add36_above m e k c t :
  0 < k -> 9437184 = c * 2 ^ k -> 2 ^ 23 <= t -> 0 <= c ->
  bounded prec emax m e = true ->
  (k - 18 < e \/ (e = k - 18 /\ t < Zpos m)) ->
  gtb (add (S754_finite false m e) (S754_finite false 9437184 (-18)))
      (S754_finite false (Z.to_pos (t + c)) (k - 18)) = true.
Proof.
  intros Hk Hc Ht Hc0 Hb Habove.
  apply bounded_inv in Hb. destruct Hb as [He [Hlog Hnorm]].
  assert (Hm : Z.log2 (Zpos m) = 23) by lia. clear Hlog Hnorm.
  unfold gtb, SFltb, add, SFadd.
  replace (Z.min e (-18)) with (-18) by lia.
  unfold shl_align.
  destruct (e + 18) as [|d|d] eqn:Hd; try lia.
  replace (-18 - e) with (Zneg d) by lia.
  change (-18 - -18) with 0. cbn [fst].
  change (cond_Zopp false ?z) with z.
  rewrite <- Pos2Z.inj_add. cbn [binary_normalize].
  set (P := (Pos.iter xO m d + 9437184)%positive).
  assert (HP : Zpos P = Zpos m * 2 ^ Zpos d + 9437184).
  { unfold P. rewrite Pos2Z.inj_add, pos_iter_xO. reflexivity. }
  assert (HlogP : 23 + Zpos d <= Z.log2 (Zpos P)).
  { rewrite <- Hm, <- log2_mul_pow2 by lia. apply Z.log2_le_mono. lia. }
  pose proof (binary_round_spec false P (-18)) as Hr. cbv zeta in Hr.
  rewrite fexp_eq, digits2_pos_log2 in Hr.
  set (e1 := Z.max (Z.log2 (Zpos P) + 1 + -18 - 24) (-149)) in Hr.
  assert (He1 : e1 = Z.log2 (Zpos P) - 41) by lia.
  unfold scaled in Hr.
  replace (-18 <=? e1) with true in Hr by (symmetry; apply Z.leb_le; lia).
  destruct Hr as [[_ Hq]|[[-> _]|[m2 [e2 [-> [_ Hcase]]]]]].
  - exfalso. apply div_pow2_zero in Hq; lia.
  - reflexivity.
  - cbn [SFcompare].
    destruct Hcase as [[-> Hq]|[-> _]].
    + destruct (Z.compare_spec (k - 18) e1) as [Heq|Hlt|Hgt];
        [|reflexivity|lia].
      assert (Zpos d = k) by lia. subst k.
      assert (Hqv : Zpos P / 2 ^ (e1 - -18) = Zpos m + c).
      { replace (e1 - -18) with (Zpos d) by lia.
        rewrite HP, Hc.
        replace (Zpos m * 2 ^ Zpos d + c * 2 ^ Zpos d)
          with ((Zpos m + c) * 2 ^ Zpos d) by lia.
        apply Z.div_mul. lia. }
      change (Pos.compare_cont Eq (Z.to_pos (t + c)) m2)
        with (Pos.compare (Z.to_pos (t + c)) m2).
      replace (Pos.compare (Z.to_pos (t + c)) m2) with Lt; [reflexivity|].
      symmetry. apply Pos.compare_lt_iff. lia.
    + destruct (Z.compare_spec (k - 18) (e1 + 1)); [lia|reflexivity|lia].
Qed.

(** One axis of the clamp: for a number [v], the two tests leave a finite
    value between 0 and the bound [hi], where [hi + 36 = lim] exactly. *)
Lemma clamp_axis v k c t :
  0 < k -> 9437184 = c * 2 ^ k -> 2 ^ 23 <= t -> 0 <= c ->
  finite (S754_finite false (Z.to_pos t) (k - 18)) = true ->
  number v = true ->
  let lim := S754_finite false (Z.to_pos (t + c)) (k - 18) in
  let hi := S754_finite false (Z.to_pos t) (k - 18) in
  let v1 := if ltb v (S754_zero false) then S754_zero false else v in
  let v2 := if gtb (add v1 (S754_finite false 9437184 (-18))) lim then hi else v1 in
  leb (S754_zero false) v2 = true /\ leb v2 hi = true /\ finite v2 = true.
Proof.
  intros Hk Hc Ht Hc0 Hfin Hv lim hi v1 v2.
  assert (Hhi : leb (S754_zero false) hi = true /\ leb hi hi = true
                /\ finite hi = true).
  { unfold hi, leb, SFleb. cbn [SFcompare]. rewrite Z.compare_refl.
    change (Pos.compare_cont Eq ?a ?b) with (Pos.compare a b).
    rewrite Pos.compare_refl. repeat split. exact Hfin. }
  unfold v2.
  destruct (gtb (add v1 (S754_finite false 9437184 (-18))) lim) eqn:Hgt;
    [exact Hhi|].
  unfold v1 in *. clear v1 v2.
  destruct v as [sv|sv| |sv m e]; try discriminate.
  - destruct sv; repeat split; reflexivity.
  - destruct sv; [repeat split; reflexivity|]. discriminate.
  - destruct sv.
    + repeat split; reflexivity.
    + change (ltb (S754_finite false m e) (S754_zero false)) with false
        in Hgt |- *.
      cbv iota in Hgt |- *.
      unfold number in Hv. cbn in Hv. rewrite andb_true_r in Hv.
      split; [reflexivity|]. split; [|exact Hv].
      unfold leb, SFleb, hi. cbn [SFcompare].
      destruct (Z.compare_spec e (k - 18)) as [Heq|Hlt|Hgt'].
      * change (Pos.compare_cont Eq ?a ?b) with (Pos.compare a b).
        destruct (Pos.compare_spec m (Z.to_pos t)) as [_|_|Hmt];
          try reflexivity.
        exfalso. unfold lim in Hgt.
        rewrite (add36_above m e k c t) in Hgt; try assumption;
          [discriminate|right; lia].
      * reflexivity.
      * exfalso. unfold lim in Hgt.
        rewrite (add36_above m e k c t) in Hgt; try assumption;
          [discriminate|left; lia].
Qed.

(** *** Conversion of small integers *)
Lemma binary_round_aux_canonical s M E :
  fexp prec emax (Zpos (digits2_pos M) + E) = E ->
  binary_round_aux prec emax s (Zpos M) E loc_Exact
  = if E <=? emax - prec then S754_finite s M E else S754_infinity s.
Proof.
  intros H. unfold binary_round_aux, shr_fexp. simpl Zdigits2.
  rewrite H, Z.sub_diag. cbn [shr shr_record_of_loc shr_m loc_of_shr_record round_nearest_even].
  simpl Zdigits2. rewrite H, Z.sub_diag. reflexivity.
Qed.

(** A positive integer below [2^24] converts exactly, to a 24-digit
    mantissa. *)
Lemma of_int_pos v : 0 < v < 2 ^ 24 ->
  of_int v = S754_finite false (Z.to_pos (v * 2 ^ (23 - Z.log2 v))) (Z.log2 v - 23).
Proof.
  intros Hv. destruct v as [|p|p]; try lia.
  assert (Hl : 0 <= Z.log2 (Zpos p) < 24).
  { split; [apply Z.log2_nonneg|]. apply Z.log2_lt_pow2; lia. }
  unfold of_int. cbn [binary_normalize]. unfold binary_round, shl_align.
  rewrite fexp_eq, digits2_pos_log2.
  replace (Z.max (Z.log2 (Zpos p) + 1 + 0 - 24) (-149) - 0)
    with (Z.log2 (Zpos p) - 23) by lia.
  replace (Z.max (Z.log2 (Zpos p) + 1 + 0 - 24) (-149))
    with (Z.log2 (Zpos p) - 23) by lia.
  destruct (Z.log2 (Zpos p) - 23) as [|k|k] eqn:Hk; try lia.
  - rewrite binary_round_aux_canonical.
    + replace (23 - Z.log2 (Zpos p)) with 0 by lia.
      rewrite Z.mul_1_r. reflexivity.
    + rewrite fexp_eq, digits2_pos_log2. lia.
  - rewrite binary_round_aux_canonical.
    + replace (Zneg k <=? emax - prec) with true
        by (symmetry; apply Z.leb_le; unfold emax, prec; lia).
      f_equal. apply Pos2Z.inj. rewrite pos_iter_xO, Z2Pos.id.
      * f_equal. f_equal. lia.
      * apply Z.mul_pos_pos; [lia|]. apply Z.pow_pos_nonneg; lia.
    + rewrite fexp_eq, digits2_pos_log2, pos_iter_xO, log2_mul_pow2 by lia.
      lia.
Qed.

(** The conversion is monotone on [0, 2^24). *)
Lemma of_int_le a b : 0 <= a <= b -> b < 2 ^ 24 ->
  leb (of_int a) (of_int b) = true.
Proof.
  intros Hab Hb.
  destruct (Z.eq_dec a 0) as [->|Ha].
  - destruct (Z.eq_dec b 0) as [->|Hb0]; [reflexivity|].
    rewrite (of_int_pos b) by lia. reflexivity.
  - rewrite (of_int_pos a), (of_int_pos b) by lia.
    unfold leb, SFleb. cbn [SFcompare].
    assert (Hlog : Z.log2 a <= Z.log2 b) by (apply Z.log2_le_mono; lia).
    destruct (Z.compare_spec (Z.log2 a - 23) (Z.log2 b - 23)) as [Heq|Hlt|Hgt];
      [|reflexivity|lia].
    change (Pos.compare_cont Eq ?p ?q) with (Pos.compare p q).
    assert (Hl : 0 <= Z.log2 a < 24).
    { split; [apply Z.log2_nonneg|]. apply Z.log2_lt_pow2; lia. }
    assert (Hle : (Z.to_pos (a * 2 ^ (23 - Z.log2 a))
                   <= Z.to_pos (b * 2 ^ (23 - Z.log2 b)))%positive).
    { replace (Z.log2 b) with (Z.log2 a) by lia.
      assert (0 < 2 ^ (23 - Z.log2 a)) by (apply Z.pow_pos_nonneg; lia).
      assert (0 < a * 2 ^ (23 - Z.log2 a) <= b * 2 ^ (23 - Z.log2 a)) by nia.
      lia. }
    apply Pos.compare_le_iff in Hle.
    destruct (Pos.compare _ _); try reflexivity. congruence.
Qed.

(** *** Checking a predicate over an interval of integers *)
Lemma all_from_spec P n : forall lo, all_from P lo n = true ->
  forall v, lo <= v < lo + Z.of_nat n -> P v = true.
Proof.
  induction n as [|n IH]; intros lo H v Hv; [lia|].
  simpl in H. apply andb_true_iff in H. destruct H as [H0 H1].
  destruct (Z.eq_dec v lo) as [->|Hne]; [assumption|].
  apply (IH (lo + 1)); [assumption|lia].
Qed.

(** For an integral width [w] in [0, 800]: [800.0f - (float)w] is
    [(float)(800 - w)] and [(int)(float)w] is [w]. *)
Lemma sub_screen_w w : 0 <= w <= 800 ->
  sub (of_int 800) (of_int w) = of_int (800 - w) /\ to_int (of_int w) = w.
Proof.
  intros Hw.
  pose (P := fun w => match sub (of_int 800) (of_int w), of_int (800 - w) with
       | S754_finite false m e, S754_finite false m' e' => Pos.eqb m m' && Z.eqb e e'
       | S754_zero false, S754_zero false => true
       | _, _ => false end && (to_int (of_int w) =? w)).
  assert (H : P w = true).
  { apply (all_from_spec P 801 0); [vm_compute; reflexivity|lia]. }
  unfold P in H. apply andb_true_iff in H. destruct H as [H1 H2].
  split; [|apply Z.eqb_eq; assumption].
  destruct (sub (of_int 800) (of_int w)) as [[]|[]| |[] m e],
           (of_int (800 - w)) as [[]|[]| |[] m' e']; try discriminate;
    try reflexivity.
  apply andb_true_iff in H1. destruct H1 as [Hm He].
  apply Pos.eqb_eq in Hm. apply Z.eqb_eq in He. congruence.
Qed.

End F32Facts.

(* ------------------------------------------------------------------------- *)
(** ** Facts about the random draws *)
(* ------------------------------------------------------------------------- *)

Import F32Facts.

Lemma GetRandomValue_range lo hi g :
  lo <= hi -> lo <= fst (GetRandomValue lo hi g) <= hi.
Proof.
  intros H. unfold GetRandomValue. cbn [fst].
  rewrite Z.min_l, Z.max_r by lia.
  pose proof (Z.mod_pos_bound (draws g (cursor g)) (hi - lo + 1)). lia.
Qed.

Lemma GetRandomValue_inv lo hi g v g' :
  GetRandomValue lo hi g = (v, g') -> lo <= hi -> lo <= v <= hi.
Proof.
  intros H Hle. pose proof (GetRandomValue_range lo hi g Hle) as Hr.
  rewrite H in Hr. exact Hr.
Qed.

(** Name every pending draw of the goal and record its range. *)
Ltac draw_all :=
  repeat match goal with
  | |- context [GetRandomValue ?lo ?hi ?g] =>
      let v := fresh "v" in let g' := fresh "g" in let H := fresh "Hdraw" in
      destruct (GetRandomValue lo hi g) as [v g'] eqn:H;
      apply GetRandomValue_inv in H; [|unfold SCREEN_W, SCREEN_H in *; lia]
  end.

Lemma between_of_int lo hi v :
  0 <= lo -> hi < 2 ^ 24 -> lo <= v <= hi ->
  F32.between lo hi (F32.of_int v) = true.
Proof.
  intros Hlo Hhi Hv. unfold F32.between.
  rewrite !of_int_le by lia. reflexivity.
Qed.

(** The three speed formulas stay in the documented ranges; each sum of two
    small integers is checked over the whole range of the draw. *)
Lemma speed_formula_ranges :
  (forall r, 40 <= r <= 180 ->
     F32.between 220 360 (F32.add (F32.of_int 180) (F32.of_int r)) = true) /\
  (forall r, 20 <= r <= 80 ->
     F32.between 120 180 (F32.add (F32.of_int 100) (F32.of_int r)) = true) /\
  (forall r, 20 <= r <= 120 ->
     F32.between 160 260 (F32.add (F32.of_int 140) (F32.of_int r)) = true).
Proof.
  repeat split; intros r Hr.
  - apply (all_from_spec
             (fun r => F32.between 220 360 (F32.add (F32.of_int 180) (F32.of_int r)))
             141 40); [vm_compute; reflexivity|lia].
  - apply (all_from_spec
             (fun r => F32.between 120 180 (F32.add (F32.of_int 100) (F32.of_int r)))
             61 20); [vm_compute; reflexivity|lia].
  - apply (all_from_spec
             (fun r => F32.between 160 260 (F32.add (F32.of_int 140) (F32.of_int r)))
             101 20); [vm_compute; reflexivity|lia].
Qed.

Lemma rain_speed_range g : F32.between 220 360 (fst (rain_speed g)) = true.
Proof.
  unfold rain_speed, bind, ret. draw_all. apply speed_formula_ranges; assumption.
Qed.

Lemma cloud_speed_range g : F32.between 120 180 (fst (cloud_speed g)) = true.
Proof.
  unfold cloud_speed, bind, ret. draw_all. apply speed_formula_ranges; assumption.
Qed.

Lemma sun_speed_range g : F32.between 160 260 (fst (sun_speed g)) = true.
Proof.
  unfold sun_speed, bind, ret. draw_all. apply speed_formula_ranges; assumption.
Qed.

Lemma kind_speed_range k g :
  (k = RAINY -> F32.between 220 360 (fst (kind_speed k g)) = true) /\
  (k = CLOUDY -> F32.between 120 180 (fst (kind_speed k g)) = true) /\
  (k <> RAINY -> k <> CLOUDY -> F32.between 160 260 (fst (kind_speed k g)) = true).
Proof.
  unfold kind_speed, RAINY, CLOUDY.
  destruct (Z.eqb_spec k 2) as [->|H2]; [|destruct (Z.eqb_spec k 1) as [->|H1]].
  - repeat split; try lia. intros _. apply rain_speed_range.
  - repeat split; try lia. intros _. apply cloud_speed_range.
  - repeat split; try lia. intros _ _. apply sun_speed_range.
Qed.

(** The recycling band for [y]: inside [-200, -20], and never the top of the
    spawning band. *)
Lemma falling_range v :
  -200 <= v <= -20 ->
  F32.between (-200) (-20) (F32.of_int v) = true /\
  F32.eqb (F32.of_int v) (F32.of_int (- SCREEN_H)) = false.
Proof.
  intros Hv.
  pose (P := fun v => F32.between (-200) (-20) (F32.of_int v)
                 && negb (F32.eqb (F32.of_int v) (F32.of_int (- SCREEN_H)))).
  assert (H : P v = true).
  { apply (all_from_spec P 181 (-200)); [vm_compute; reflexivity|lia]. }
  unfold P in H. apply andb_true_iff in H. destruct H as [H1 H2].
  split; [assumption|]. apply negb_true_iff. assumption.
Qed.

(* ------------------------------------------------------------------------- *)
(** ** Facts about ResetGame *)
(* ------------------------------------------------------------------------- *)

Lemma spawn_enemy_rain g : rain_drop (fst (spawn_enemy RAINY g)).
Proof.
  unfold spawn_enemy, RAINY. cbn [Z.eqb Pos.eqb]. unfold bind at 1 2 3 4 5.
  draw_all.
  pose proof (rain_speed_range g3) as Hs.
  unfold ret. destruct (rain_speed g3) as [sp g4]. cbn [fst] in *.
  unfold rain_drop. cbn [erect width height speedY kind].
  repeat split; try assumption; apply between_of_int; lia.
Qed.

Lemma spawn_enemy_default k g :
  k <> 2 -> k <> 1 -> sun_disc k (fst (spawn_enemy k g)).
Proof.
  intros H2 H1. unfold spawn_enemy.
  replace (k =? 2) with false by (symmetry; apply Z.eqb_neq; assumption).
  replace (k =? 1) with false by (symmetry; apply Z.eqb_neq; assumption).
  unfold bind at 1 2 3 4. draw_all.
  pose proof (sun_speed_range g2) as Hs.
  unfold ret. destruct (sun_speed g2) as [sp g3]. cbn [fst] in *.
  unfold sun_disc. cbn [erect width height speedY kind].
  repeat split; try assumption; apply between_of_int; lia.
Qed.

Lemma spawn_enemies_length w n : forall g,
  length (fst (spawn_enemies n w g)) = n.
Proof.
  induction n as [|n IH]; intros g; [reflexivity|].
  cbn [spawn_enemies]. unfold bind, ret.
  destruct (spawn_enemy w g) as [e g1]. specialize (IH g1).
  destruct (spawn_enemies n w g1) as [es g2]. cbn [fst length] in *. lia.
Qed.

Lemma spawn_enemies_Forall (P : Enemy -> Prop) w :
  (forall g, P (fst (spawn_enemy w g))) ->
  forall n g, Forall P (fst (spawn_enemies n w g)).
Proof.
  intros HP n. induction n as [|n IH]; intros g; [constructor|].
  cbn [spawn_enemies]. unfold bind, ret.
  specialize (HP g). destruct (spawn_enemy w g) as [e g1]. specialize (IH g1).
  destruct (spawn_enemies n w g1) as [es g2]. cbn [fst] in *.
  constructor; assumption.
Qed.

Lemma ResetGame_fields w p n g :
  let r := fst (ResetGame w p n g) in
  fst (fst r) = mkPlayer start_rect (speed p) /\
  snd (fst r) = fst (spawn_enemies (Z.to_nat n) w g) /\
  snd r = F32.of_int 0.
Proof.
  unfold ResetGame, bind, ret.
  destruct (spawn_enemies (Z.to_nat n) w g) as [es g1]. cbn. auto.
Qed.

(** Every spawned enemy has an integral width between 3 and 72, whatever
    the weather value. *)
Lemma spawn_enemy_width w g :
  exists n, 3 <= n <= 72 /\ width (erect (fst (spawn_enemy w g))) = F32.of_int n.
Proof.
  unfold spawn_enemy.
  destruct (w =? 2); [|destruct (w =? 1)].
  - unfold bind at 1 2 3 4 5. draw_all. unfold ret.
    destruct (rain_speed g3) as [sp g4]. exists v1. split; [lia|reflexivity].
  - unfold bind at 1 2 3 4 5. draw_all. unfold ret.
    destruct (cloud_speed g3) as [sp g4]. exists v1. split; [lia|reflexivity].
  - unfold bind at 1 2 3 4. draw_all. unfold ret.
    destruct (sun_speed g2) as [sp g3]. exists v1. split; [lia|reflexivity].
Qed.

(** [ResetGame] establishes the player invariant. *)
Lemma ResetGame_player_wf w p n g :
  speed p = F32.of_int 260 ->
  player_wf (fst (fst (fst (ResetGame w p n g)))).
Proof.
  intros Hs. destruct (ResetGame_fields w p n g) as (-> & _ & _).
  unfold player_wf. cbn [rect speed]. repeat split; assumption.
Qed.

(* ------------------------------------------------------------------------- *)
(** ** Facts about the player step *)
(* ------------------------------------------------------------------------- *)

(** The nine direction vectors, by cases on the four axis signals. *)
Lemma direction_speed_finite i :
  F32.finite (F32.mul (vx (direction i)) (F32.of_int 260)) = true /\
  F32.finite (F32.mul (vy (direction i)) (F32.of_int 260)) = true.
Proof.
  unfold direction, raw_direction.
  destruct (down_RIGHT i || down_D i), (down_LEFT i || down_A i),
           (down_DOWN i || down_S i), (down_UP i || down_W i);
    vm_compute; split; reflexivity.
Qed.

Lemma diagonal_direction i :
  diagonal i = true ->
  exists sx sy,
    direction i = mkVector2 (S754_finite sx 11863283 (-24))
                            (S754_finite sy 11863283 (-24)).
Proof.
  unfold diagonal, direction, raw_direction.
  destruct (down_RIGHT i || down_D i), (down_LEFT i || down_A i),
           (down_DOWN i || down_S i), (down_UP i || down_W i);
    try discriminate; intros _;
    [exists false, false|exists false, true|exists true, false|exists true, true];
    vm_compute; reflexivity.
Qed.

Lemma no_direction_skips i :
  no_direction i = true ->
  raw_direction i = mkVector2 (F32.of_int 0) (F32.of_int 0) /\
  direction i = raw_direction i.
Proof.
  unfold no_direction, direction, raw_direction.
  destruct (down_RIGHT i || down_D i), (down_LEFT i || down_A i),
           (down_DOWN i || down_S i), (down_UP i || down_W i);
    try discriminate; intros _; vm_compute; split; reflexivity.
Qed.

Lemma displacement_number i dt :
  F32.finite dt = true ->
  F32.number (vx (displacement (direction i) (F32.of_int 260) dt)) = true /\
  F32.number (vy (displacement (direction i) (F32.of_int 260) dt)) = true.
Proof.
  intros Hdt. destruct (direction_speed_finite i) as [Hx Hy].
  unfold displacement; cbn [vx vy].
  split; apply mul_number; assumption.
Qed.

(** The clamp on both axes, from the one-axis lemma at the constants
    [764 + 36 = 800] and [414 + 36 = 450]. *)
Lemma step_player_clamped p i :
  player_wf p -> F32.finite (frame_time i) = true ->
  inside_screen (rect (step_player p i)) /\ player_wf (step_player p i).
Proof.
  intros (Hw & Hh & Hs & Hx & Hy) Hdt.
  unfold step_player, inside_screen, player_wf, clamp_rect, move_rect.
  cbn [rect speed x y width height]. rewrite Hw, Hh, Hs.
  destruct (displacement_number i _ Hdt) as [Hdx Hdy].
  set (d := displacement (direction i) (F32.of_int 260) (frame_time i)) in *.
  pose proof (add_number _ _ Hx Hdx) as Hvx.
  pose proof (add_number _ _ Hy Hdy) as Hvy.
  pose proof (clamp_axis (F32.add (x (rect p)) (vx d)) 4 589824 12517376) as Cx.
  pose proof (clamp_axis (F32.add (y (rect p)) (vy d)) 3 1179648 13565952) as Cy.
  cbv zeta in Cx, Cy.
  destruct Cx as (Cx1 & Cx2 & Cx3); try lia; try assumption; try reflexivity.
  destruct Cy as (Cy1 & Cy2 & Cy3); try lia; try assumption; try reflexivity.
  repeat split; assumption.
Qed.

Lemma mul_zero_r a s :
  F32.finite a = true -> F32.is_zero (F32.mul a (S754_zero s)) = true.
Proof. destruct a; try discriminate; reflexivity. Qed.

Lemma eqb_refl_finite v : F32.finite v = true -> F32.eqb v v = true.
Proof.
  destruct v as [s|s| |s m e]; try discriminate; intros _; [reflexivity|].
  unfold F32.eqb, SFeqb. cbn [SFcompare]. rewrite Z.compare_refl.
  change (Pos.compare_cont Eq m m) with (Pos.compare m m).
  rewrite Pos.compare_refl. destruct s; reflexivity.
Qed.

Lemma add_zero_r v z :
  F32.finite v = true -> F32.is_zero z = true -> F32.eqb (F32.add v z) v = true.
Proof.
  destruct z as [sz| | |]; try discriminate.
  destruct v as [s|s| |s m e]; try discriminate; intros Hv _.
  - destruct s, sz; reflexivity.
  - cbn [F32.add SFadd]. apply eqb_refl_finite. assumption.
Qed.

(* ------------------------------------------------------------------------- *)
(** ** Facts about the enemy loop *)
(* ------------------------------------------------------------------------- *)

Lemma update_enemy_recycles dt e g :
  below_bottom (fall dt e) = true ->
  update_enemy dt e g = recycle (fall dt e) g.
Proof.
  intros H. unfold update_enemy. rewrite H. reflexivity.
Qed.

(** What [recycle] returns, in terms of the integers it draws. *)
Lemma recycle_shape e g w :
  width (erect e) = F32.of_int w -> 0 <= w <= SCREEN_W ->
  exists xi yi g',
    -200 <= yi <= -20 /\ 0 <= xi <= SCREEN_W - w /\
    fst (recycle e g)
    = mkEnemy (mkRectangle (F32.of_int xi) (F32.of_int yi)
                           (width (erect e)) (height (erect e)))
              (fst (kind_speed (kind e) g')) (kind e).
Proof.
  intros Hw Hrange. unfold recycle.
  rewrite Hw. destruct (sub_screen_w w Hrange) as [_ ->].
  unfold bind at 1 2 3. draw_all.
  exists v0, v, g1. split; [assumption|]. split; [assumption|].
  destruct (kind_speed (kind e) g1) as [sp g2]. reflexivity.
Qed.

(** Falling and recycling never change the size or the kind. *)
Lemma update_enemy_keeps_size_and_kind dt e g :
  width (erect (fst (update_enemy dt e g))) = width (erect e) /\
  height (erect (fst (update_enemy dt e g))) = height (erect e) /\
  kind (fst (update_enemy dt e g)) = kind e.
Proof.
  unfold update_enemy. destruct (below_bottom (fall dt e)).
  - unfold recycle, bind, GetRandomValue.
    destruct (kind_speed _ _) as [sp g2]. cbn. auto.
  - cbn. auto.
Qed.

(** The loop ends in GAME_OVER with the best score raised to [(int)score]
    exactly when one of the updated enemies overlaps the player; otherwise
    it leaves the state and the best score alone. *)
Lemma enemies_loop_spec prect dt sc es : forall st best g,
  let r := fst (enemies_loop prect dt sc es st best g) in
  (existsb (hits prect) (fst (fst r)) = true ->
     snd (fst r) = GAME_OVER /\ snd r = Z.max best (F32.to_int sc)) /\
  (existsb (hits prect) (fst (fst r)) = false ->
     snd (fst r) = st /\ snd r = best).
Proof.
  induction es as [|e rest IH]; intros st best g; cbv zeta.
  - simpl. split; [discriminate|auto].
  - cbn [enemies_loop]. unfold bind.
    destruct (update_enemy dt e g) as [e' g1].
    set (st1 := if CheckCollisionRecs prect (erect e') then GAME_OVER else st).
    set (best1 := if CheckCollisionRecs prect (erect e') && (F32.to_int sc >? best)
                  then F32.to_int sc else best).
    specialize (IH st1 best1 g1). cbv zeta in IH.
    destruct (enemies_loop prect dt sc rest st1 best1 g1) as [[[rest' st2] best2] g2].
    cbn [fst snd ret] in *. cbn [existsb]. unfold hits at 1 3.
    destruct IH as [IHt IHf].
    unfold st1, best1 in *. clear st1 best1.
    destruct (CheckCollisionRecs prect (erect e')) eqn:Hhit; cbn [orb andb] in *.
    + split; [intros _|discriminate].
      destruct (existsb (hits prect) rest') eqn:Hrest.
      * destruct (IHt eq_refl) as [-> ->]. split; [reflexivity|].
        destruct (F32.to_int sc >? best) eqn:Hgt; lia.
      * destruct (IHf eq_refl) as [-> ->]. split; [reflexivity|].
        destruct (F32.to_int sc >? best) eqn:Hgt; lia.
    + split; intros H.
      * apply IHt; assumption.
      * apply IHf; assumption.
Qed.

Lemma existsb_hits prect es :
  (exists e, In e es /\ CheckCollisionRecs prect (erect e) = true) ->
  existsb (hits prect) es = true.
Proof.
  intros [e [Hin Hc]]. apply existsb_exists. exists e. split; assumption.
Qed.

(** For a score that fits an [int], truncation and floor raise a
    non-negative best score to the same value. *)
Lemma max_to_int_floor sc best :
  F32.int_representable sc = true -> 0 <= best ->
  Z.max best (F32.to_int sc) = Z.max best (F32.floor sc).
Proof.
  intros Hr Hb. unfold F32.to_int. rewrite Hr.
  destruct sc as [s|s| |s m e]; try reflexivity.
  unfold F32.trunc, F32.floor. destruct s; [|reflexivity].
  cbn [cond_Zopp].
  assert (0 <= Z.shiftl (Zpos m) e) by (apply Z.shiftl_nonneg; lia).
  assert (Z.shiftl (Z.opp (Zpos m)) e < 0).
  { destruct (Z.lt_ge_cases (Z.shiftl (- Zpos m) e) 0) as [|Hge]; [assumption|].
    apply Z.shiftl_nonneg in Hge. lia. }
  lia.
Qed.

Lemma update_playing_fields s i g :
  let r := fst (enemies_loop (rect (step_player (player s) i)) (frame_time i)
                  (score s) (enemies s) (state s) (bestScore s) g) in
  let s' := fst (update_playing s i g) in
  enemies s' = fst (fst r) /\ state s' = snd (fst r) /\ bestScore s' = snd r /\
  player s' = step_player (player s) i /\
  score s' = F32.add (score s) (F32.mul (F32.of_int 60) (frame_time i)) /\
  gWeather s' = debug_weather i (gWeather s).
Proof.
  unfold update_playing, bind.
  destruct (enemies_loop _ _ _ _ _ _ g) as [[[es st] best] g'].
  cbn. repeat split.
Qed.

(** The best score never decreases. *)
Lemma bestScore_monotone s i g : bestScore s <= bestScore (fst (update s i g)).
Proof.
  unfold update. destruct (state s) eqn:Hst.
  - unfold update_menu. destruct (pressed_SPACE i || pressed_ENTER i).
    + unfold bind. destruct (ResetGame _ _ _ g) as [[[p es] sc] g1].
      cbn. lia.
    + cbn. lia.
  - destruct (update_playing_fields s i g) as (_ & _ & -> & _).
    destruct (enemies_loop_spec (rect (step_player (player s) i)) (frame_time i)
                (score s) (enemies s) (state s) (bestScore s) g) as [Ht Hf].
    destruct (existsb _ _).
    + destruct (Ht eq_refl) as [_ ->]. lia.
    + destruct (Hf eq_refl) as [_ ->]. lia.
  - unfold update_game_over, bind. destruct (pressed_R i).
    + destruct (ResetGame _ _ _ g) as [[[p es] sc] g1].
      destruct (pressed_ESCAPE i); cbn; lia.
    + destruct (pressed_ESCAPE i); cbn; lia.
Qed.

(* ------------------------------------------------------------------------- *)
(** ** The diagonal step: how far rounding moves it from speed * dt *)
(* ------------------------------------------------------------------------- *)

(** With [K = 12048647] (the mantissa of [0.70710677f * 260.0f]) and an
    integer [Y] within [2^-23] of [K * m], twice the square of [Y] is within
    [2^-21] of [(260 * 2^16 * m)^2]. *)
Lemma diagonal_square_bounds m Y :
  0 < m -> 0 <= Y ->
  2 ^ 23 * Z.abs (Y - 12048647 * m) <= 12048647 * m ->
  (2 ^ 21 - 1) * (67600 * 2 ^ 32 * (m * m)) <= 2 ^ 21 * (2 * (Y * Y)) /\
  2 ^ 21 * (2 * (Y * Y)) <= (2 ^ 21 + 1) * (67600 * 2 ^ 32 * (m * m)).
Proof.
  intros Hm HY H.
  set (A := 12048647 * m) in *.
  assert (Hlo : (2 ^ 23 - 1) * A <= 2 ^ 23 * Y) by lia.
  assert (Hhi : 2 ^ 23 * Y <= (2 ^ 23 + 1) * A) by lia.
  assert (HA : 0 < A) by lia.
  assert (Hlo2 : ((2 ^ 23 - 1) * A) * ((2 ^ 23 - 1) * A) <= (2 ^ 23 * Y) * (2 ^ 23 * Y)).
  { apply Z.mul_le_mono_nonneg; lia. }
  assert (Hhi2 : (2 ^ 23 * Y) * (2 ^ 23 * Y) <= ((2 ^ 23 + 1) * A) * ((2 ^ 23 + 1) * A)).
  { apply Z.mul_le_mono_nonneg; lia. }
  assert (HAA : A * A = 12048647 * 12048647 * (m * m)) by (unfold A; ring).
  assert (Hmm : 0 < m * m) by nia.
  set (mm := m * m) in *. set (YY := Y * Y) in *.
  replace ((2 ^ 23 - 1) * A * ((2 ^ 23 - 1) * A))
    with ((2 ^ 23 - 1) * (2 ^ 23 - 1) * (A * A)) in Hlo2 by ring.
  replace ((2 ^ 23 + 1) * A * ((2 ^ 23 + 1) * A))
    with ((2 ^ 23 + 1) * (2 ^ 23 + 1) * (A * A)) in Hhi2 by ring.
  replace (2 ^ 23 * Y * (2 ^ 23 * Y)) with (2 ^ 46 * YY) in Hlo2, Hhi2
    by (unfold YY; ring).
  rewrite HAA in Hlo2, Hhi2.
  change (2 ^ 23) with 8388608 in *. change (2 ^ 46) with 70368744177664 in *.
  change (2 ^ 21) with 2097152. change (2 ^ 32) with 4294967296.
  lia.
Qed.

(** The product of [+-183.84776] with a positive frame time, when it does
    not overflow, is a finite float.  In units of [2^(e - 16)] it is within
    [2^16 * m] of the exact product [12048647 * m], and within a relative
    [2^-23] of it when the frame time is normal. *)
Lemma mul_diag_error s m e :
  bounded F32.prec F32.emax m e = true ->
  F32.finite (F32.mul (S754_finite s 12048647 (-16)) (S754_finite false m e)) = true ->
  exists m2 e2,
    F32.mul (S754_finite s 12048647 (-16)) (S754_finite false m e)
    = S754_finite s m2 e2 /\
    e - 16 <= e2 /\
    Z.abs (Zpos m2 * 2 ^ (e2 - (e - 16)) - 12048647 * Zpos m) <= 65536 * Zpos m /\
    (Z.log2 (Zpos m) = 23 ->
     2 ^ 23 * Z.abs (Zpos m2 * 2 ^ (e2 - (e - 16)) - 12048647 * Zpos m)
     <= 12048647 * Zpos m).
Proof.
  intros Hb Hfin.
  apply bounded_inv in Hb. destruct Hb as [Hrange _].
  revert Hfin. unfold F32.mul, SFmul. rewrite xorb_false_r.
  set (P := (12048647 * m)%positive).
  assert (HP : Zpos P = 12048647 * Zpos m) by reflexivity.
  assert (HL : 23 <= Z.log2 (Zpos P)).
  { apply Z.log2_le_pow2; [lia|]. rewrite HP. change (2 ^ 23) with 8388608. lia. }
  pose proof (binary_round_aux_spec s P (-16 + e) loc_Exact) as Hr.
  cbv zeta in Hr. rewrite fexp_eq, digits2_pos_log2 in Hr.
  set (e1 := Z.max (Z.log2 (Zpos P) + 1 + (-16 + e) - 24) (-149)) in Hr.
  specialize (Hr ltac:(lia)).
  set (n := e1 - (-16 + e)) in Hr.
  assert (Hn : 0 <= n) by lia.
  assert (H2n : 0 < 2 ^ n) by (apply Z.pow_pos_nonneg; lia).
  assert (Hsize : 2 ^ n <= 65536 \/ 2 ^ 23 * 2 ^ n <= Zpos P).
  { destruct (Z.eq_dec e1 (-149)) as [He|He].
    - left. change 65536 with (2 ^ 16). apply Z.pow_le_mono_r; lia.
    - right. rewrite <- Z.pow_add_r by lia.
      replace (23 + n) with (Z.log2 (Zpos P)) by lia.
      apply Z.log2_spec. lia. }
  assert (Hcoarse : 2 ^ n <= 65536 * Zpos m).
  { destruct Hsize as [Hs|Hs]; [lia|].
    rewrite HP in Hs. change (2 ^ 23) with 8388608 in Hs. lia. }
  assert (Hfine : Z.log2 (Zpos m) = 23 -> 2 ^ 23 * 2 ^ n <= Zpos P).
  { intros Hm. destruct Hsize as [Hs|Hs]; [|exact Hs].
    pose proof (Z.log2_spec (Zpos m) ltac:(lia)) as Hspec. rewrite Hm in Hspec.
    rewrite HP. change (2 ^ 23) with 8388608 in *. lia. }
  set (q := Zpos P / 2 ^ n) in Hr.
  assert (Hq : q * 2 ^ n <= Zpos P < (q + 1) * 2 ^ n).
  { unfold q. pose proof (Z.mul_div_le (Zpos P) (2 ^ n) H2n).
    pose proof (Z.mul_succ_div_gt (Zpos P) (2 ^ n) H2n). lia. }
  intros Hfin.
  destruct Hr as [[_ Hq0]|[[Hinf _]|[m2 [e2 [Hr [_ Hcase]]]]]].
  - exfalso. rewrite Hq0 in Hq.
    destruct Hsize as [Hs|Hs]; [|lia].
    assert (8388608 <= Zpos P) by (rewrite HP; lia). lia.
  - rewrite Hinf in Hfin. discriminate.
  - rewrite Hr. exists m2, e2. split; [reflexivity|].
    rewrite <- HP.
    assert (Hunit : e - 16 <= e2 /\
              Z.abs (Zpos m2 * 2 ^ (e2 - (e - 16)) - Zpos P) <= 2 ^ n).
    { destruct Hcase as [[-> Hm2]|[-> [Hm2 Hq1]]].
      - split; [lia|]. replace (e1 - (e - 16)) with n by lia. nia.
      - split; [lia|]. replace (e1 + 1 - (e - 16)) with (n + 1) by lia.
        rewrite Z.pow_add_r, Hm2 by lia.
        replace (2 ^ 23 * (2 ^ n * 2 ^ 1)) with ((q + 1) * 2 ^ n) by (rewrite Hq1; lia).
        nia. }
    destruct Hunit as [He2 Hunit].
    split; [exact He2|]. split; [lia|].
    intros Hm. specialize (Hfine Hm). lia.
Qed.

(** With [K = 12048647] and an integer [Y] within [2^16 * m] of [K * m],
    twice the square of [Y] is within two per cent of [(260 * 2^16 * m)^2]. *)
Lemma diagonal_square_coarse m Y :
  0 < m -> 0 <= Y ->
  Z.abs (Y - 12048647 * m) <= 65536 * m ->
  49 * (67600 * 2 ^ 32 * (m * m)) <= 50 * (2 * (Y * Y)) /\
  50 * (2 * (Y * Y)) <= 51 * (67600 * 2 ^ 32 * (m * m)).
Proof.
  intros Hm HY H.
  assert (Hlo : 11983111 * m <= Y) by lia.
  assert (Hhi : Y <= 12114183 * m) by lia.
  assert (Hlo2 : (11983111 * m) * (11983111 * m) <= Y * Y).
  { apply Z.mul_le_mono_nonneg; lia. }
  assert (Hhi2 : Y * Y <= (12114183 * m) * (12114183 * m)).
  { apply Z.mul_le_mono_nonneg; lia. }
  assert (Hmm : 0 < m * m) by nia.
  replace (11983111 * m * (11983111 * m)) with (11983111 * 11983111 * (m * m)) in Hlo2 by ring.
  replace (12114183 * m * (12114183 * m)) with (12114183 * 12114183 * (m * m)) in Hhi2 by ring.
  set (mm := m * m) in *. set (YY := Y * Y) in *.
  change (2 ^ 32) with 4294967296.
  lia.
Qed.

Lemma to_Q_scaled s m e E :
  E <= e ->
  (F32.to_Q (S754_finite s m e)
   == inject_Z (cond_Zopp s (Zpos m * 2 ^ (e - E))) * Qpower 2 E)%Q.
Proof.
  intros H. unfold F32.to_Q.
  replace e with ((e - E) + E) at 1 by lia.
  rewrite Qpower_plus by discriminate.
  assert (Hc : cond_Zopp s (Zpos m * 2 ^ (e - E)) = cond_Zopp s (Zpos m) * 2 ^ (e - E)).
  { destruct s; unfold cond_Zopp; ring. }
  rewrite Hc, inject_Z_mult, Zpower_Qpower by lia.
  change (inject_Z 2) with 2%Q. ring.
Qed.

Lemma sq_cond_Zopp s z : cond_Zopp s z * cond_Zopp s z = z * z.
Proof. destruct s; unfold cond_Zopp; ring. Qed.

Lemma Qsquare_scaled s m e E :
  E <= e ->
  (F32.to_Q (S754_finite s m e) * F32.to_Q (S754_finite s m e)
   == inject_Z ((Zpos m * 2 ^ (e - E)) * (Zpos m * 2 ^ (e - E)))
      * (Qpower 2 E * Qpower 2 E))%Q.
Proof.
  intros H. rewrite (to_Q_scaled s m e E H).
  rewrite <- (sq_cond_Zopp s (Zpos m * 2 ^ (e - E))).
  rewrite inject_Z_mult. ring.
Qed.

Lemma diag_speed s :
  F32.mul (S754_finite s 11863283 (-24)) (F32.of_int 260)
  = S754_finite s 12048647 (-16).
Proof. destruct s; vm_compute; reflexivity. Qed.

Lemma binary_round_aux_abs s M E l :
  SFabs (binary_round_aux F32.prec F32.emax s M E l)
  = SFabs (binary_round_aux F32.prec F32.emax false M E l).
Proof.
  unfold binary_round_aux.
  destruct (shr_fexp F32.prec F32.emax M E l) as [mrs e1].
  destruct (shr_fexp F32.prec F32.emax _ e1 loc_Exact) as [mrs2 e2].
  destruct (shr_m mrs2); try reflexivity.
  destruct (e2 <=? F32.emax - F32.prec); reflexivity.
Qed.

Lemma mul_abs_sign s1 s2 m e b :
  SFabs (F32.mul (S754_finite s1 m e) b) = SFabs (F32.mul (S754_finite s2 m e) b).
Proof.
  destruct b as [sb|sb| |sb mb eb]; try reflexivity.
  unfold F32.mul, SFmul.
  rewrite (binary_round_aux_abs (xorb s1 sb)), (binary_round_aux_abs (xorb s2 sb)).
  reflexivity.
Qed.

Lemma finite_abs f : F32.finite (SFabs f) = F32.finite f.
Proof. destruct f; reflexivity. Qed.

(** The squared length of a diagonal displacement and [(260 * dt)^2], both
    in units of [2^(e - 16)] squared. *)
Lemma diagonal_displacement_units i m e :
  diagonal i = true ->
  bounded F32.prec F32.emax m e = true ->
  let dt := S754_finite false m e in
  let d := displacement (direction i) (F32.of_int 260) dt in
  F32.finite (vx d) = true ->
  exists Yx Yy U,
    0 <= Yx /\ 0 <= Yy /\ (0 <= U)%Q /\
    Z.abs (Yx - 12048647 * Zpos m) <= 65536 * Zpos m /\
    Z.abs (Yy - 12048647 * Zpos m) <= 65536 * Zpos m /\
    (Z.log2 (Zpos m) = 23 ->
       2 ^ 23 * Z.abs (Yx - 12048647 * Zpos m) <= 12048647 * Zpos m /\
       2 ^ 23 * Z.abs (Yy - 12048647 * Zpos m) <= 12048647 * Zpos m) /\
    (sq_norm d == inject_Z (Yx * Yx + Yy * Yy) * U)%Q /\
    ((260 * F32.to_Q dt) * (260 * F32.to_Q dt)
     == inject_Z (67600 * 2 ^ 32 * (Zpos m * Zpos m)) * U)%Q.
Proof.
  intros Hdiag Hb. cbv zeta.
  destruct (diagonal_direction i Hdiag) as (sx & sy & Hdir).
  rewrite Hdir. unfold displacement, sq_norm. cbn [vx vy].
  rewrite !diag_speed. intros Hfx.
  assert (Hfy : F32.finite (F32.mul (S754_finite sy 12048647 (-16))
                                    (S754_finite false m e)) = true).
  { rewrite <- finite_abs, (mul_abs_sign sy sx), finite_abs. exact Hfx. }
  destruct (mul_diag_error sx m e Hb Hfx) as (mx & ex & -> & Hex & Hx & Hx').
  destruct (mul_diag_error sy m e Hb Hfy) as (my & ey & -> & Hey & Hy & Hy').
  exists (Zpos mx * 2 ^ (ex - (e - 16))), (Zpos my * 2 ^ (ey - (e - 16))),
         (Qpower 2 (e - 16) * Qpower 2 (e - 16))%Q.
  split; [apply Z.mul_nonneg_nonneg; [lia|apply Z.pow_nonneg; lia]|].
  split; [apply Z.mul_nonneg_nonneg; [lia|apply Z.pow_nonneg; lia]|].
  split; [apply Qmult_le_0_compat; apply Qpower_0_le; discriminate|].
  split; [exact Hx|]. split; [exact Hy|].
  split; [intros Hm; split; [apply Hx'|apply Hy']; exact Hm|].
  split.
  - rewrite (Qsquare_scaled sx mx ex (e - 16) Hex).
    rewrite (Qsquare_scaled sy my ey (e - 16) Hey).
    rewrite inject_Z_plus. ring.
  - rewrite (to_Q_scaled false m e (e - 16)) by lia.
    replace (e - (e - 16)) with 16 by lia. cbn [cond_Zopp].
    rewrite !inject_Z_mult.
    change (inject_Z (2 ^ 16)) with 65536%Q.
    change (inject_Z (2 ^ 32)) with 4294967296%Q.
    change (inject_Z 67600) with 67600%Q. ring.
Qed.

Lemma positive_time_inv dt :
  positive_time dt = true ->
  exists m e, dt = S754_finite false m e /\ bounded F32.prec F32.emax m e = true.
Proof.
  destruct dt as [| | |[] m e]; try discriminate. intros H. eauto.
Qed.

Lemma normal_time_inv dt :
  normal_time dt = true ->
  exists m e, dt = S754_finite false m e /\
    bounded F32.prec F32.emax m e = true /\ Z.log2 (Zpos m) = 23.
Proof.
  destruct dt as [| | |[] m e]; try discriminate. unfold normal_time.
  intros H. apply andb_true_iff in H. destruct H as [Hb Hd].
  apply Z.eqb_eq in Hd. rewrite digits2_pos_log2 in Hd.
  exists m, e. repeat split; try assumption; lia.
Qed.

(** For a positive normal frame time: within a factor [1 +- 2^-21]. *)
Lemma diagonal_displacement_bounds i dt :
  diagonal i = true -> normal_time dt = true ->
  let d := displacement (direction i) (F32.of_int 260) dt in
  let L := ((260 * F32.to_Q dt) * (260 * F32.to_Q dt))%Q in
  F32.finite (vx d) = true ->
  ((1 - (1 # 2097152)) * L <= sq_norm d /\ sq_norm d <= (1 + (1 # 2097152)) * L)%Q.
Proof.
  intros Hdiag Hdt.
  destruct (normal_time_inv dt Hdt) as (m & e & -> & Hb & Hm).
  cbv zeta. intros Hfin.
  destruct (diagonal_displacement_units i m e Hdiag Hb Hfin)
    as (Yx & Yy & U & HYx & HYy & HU & _ & _ & Hfine & -> & ->).
  destruct (Hfine Hm) as [Hx Hy].
  destruct (diagonal_square_bounds (Zpos m) Yx ltac:(lia) HYx Hx) as [Hx1 Hx2].
  destruct (diagonal_square_bounds (Zpos m) Yy ltac:(lia) HYy Hy) as [Hy1 Hy2].
  set (mm := Zpos m * Zpos m) in *.
  set (XX := Yx * Yx) in *. set (YY := Yy * Yy) in *.
  split.
  - rewrite Qmult_assoc. apply Qmult_le_compat_r; [|exact HU].
    unfold Qle. cbn. lia.
  - rewrite Qmult_assoc. apply Qmult_le_compat_r; [|exact HU].
    unfold Qle. cbn. lia.
Qed.

(** For every positive frame time, subnormal ones included: within two per
    cent. *)
Lemma diagonal_displacement_coarse i dt :
  diagonal i = true -> positive_time dt = true ->
  let d := displacement (direction i) (F32.of_int 260) dt in
  let L := ((260 * F32.to_Q dt) * (260 * F32.to_Q dt))%Q in
  F32.finite (vx d) = true ->
  ((49 # 50) * L <= sq_norm d /\ sq_norm d <= (51 # 50) * L)%Q.
Proof.
  intros Hdiag Hdt.
  destruct (positive_time_inv dt Hdt) as (m & e & -> & Hb).
  cbv zeta. intros Hfin.
  destruct (diagonal_displacement_units i m e Hdiag Hb Hfin)
    as (Yx & Yy & U & HYx & HYy & HU & Hx & Hy & _ & -> & ->).
  destruct (diagonal_square_coarse (Zpos m) Yx ltac:(lia) HYx Hx) as [Hx1 Hx2].
  destruct (diagonal_square_coarse (Zpos m) Yy ltac:(lia) HYy Hy) as [Hy1 Hy2].
  set (mm := Zpos m * Zpos m) in *.
  set (XX := Yx * Yx) in *. set (YY := Yy * Yy) in *.
  split.
  - rewrite Qmult_assoc. apply Qmult_le_compat_r; [|exact HU].
    unfold Qle. cbn. lia.
  - rewrite Qmult_assoc. apply Qmult_le_compat_r; [|exact HU].
    unfold Qle. cbn. lia.
Qed.

(** *** The rounding of one addition *)

(** Aligning a mantissa to a lower exponent multiplies it by a power of
    two. *)
Lemma shl_align_value m e ez :
  ez <= e ->
  Zpos (fst (shl_align m e ez)) = Zpos m * 2 ^ (e - ez).
Proof.
  intros H. unfold shl_align.
  destruct (ez - e) as [|d|d] eqn:Hd; try lia; cbn [fst].
  - replace (e - ez) with 0 by lia. lia.
  - rewrite pos_iter_xO. f_equal. f_equal. lia.
Qed.

Lemma Qpower2_nonneg E : (0 <= Qpower 2 E)%Q.
Proof. apply Qpower_0_le. discriminate. Qed.

Lemma Qabs_scaled z E :
  (Qabs (inject_Z z * Qpower 2 E) == inject_Z (Z.abs z) * Qpower 2 E)%Q.
Proof.
  rewrite Qabs_Qmult, (Qabs_pos (Qpower 2 E)) by apply Qpower2_nonneg.
  reflexivity.
Qed.

(** Rounding an integer mantissa [M] at exponent [E] moves it by at most a
    relative [2^-23]; nothing is lost when it already fits the grid. *)
Lemma binary_round_error s M E :
  -149 <= E ->
  F32.finite (binary_round F32.prec F32.emax s M E) = true ->
  exists D, 2 ^ 23 * Z.abs D <= Zpos M /\
    (F32.to_Q (binary_round F32.prec F32.emax s M E)
     == inject_Z (cond_Zopp s (Zpos M + D)) * Qpower 2 E)%Q.
Proof.
  intros HE Hfin.
  pose proof (binary_round_spec s M E) as Hr. cbv zeta in Hr.
  revert Hfin Hr. unfold binary_round, shl_align.
  set (e1 := fexp F32.prec F32.emax (Zpos (digits2_pos M) + E)).
  assert (He1 : e1 = Z.max (Z.log2 (Zpos M) + 1 + E - 24) (-149))
    by (unfold e1; rewrite fexp_eq, digits2_pos_log2; reflexivity).
  destruct (e1 - E) as [|p|p] eqn:Hd.
  - (* already on the grid *)
    intros Hfin _. rewrite binary_round_aux_canonical in * by (fold e1; lia).
    destruct (E <=? F32.emax - F32.prec); [|discriminate].
    exists 0. split; [simpl; lia|]. rewrite Z.add_0_r. reflexivity.
  - (* the mantissa is shifted right and rounded *)
    intros Hfin Hr. unfold F32.scaled in Hr.
    replace (E <=? e1) with true in Hr by (symmetry; apply Z.leb_le; lia).
    rewrite Hd in Hr.
    set (r := binary_round_aux F32.prec F32.emax s (Zpos M) E loc_Exact) in *.
    set (n := Zpos p) in *.
    assert (Hn : n = Z.log2 (Zpos M) - 23) by lia.
    assert (Hpow : 2 ^ n * 2 ^ 23 <= Zpos M).
    { rewrite <- Z.pow_add_r by lia. replace (n + 23) with (Z.log2 (Zpos M)) by lia.
      apply Z.log2_spec. lia. }
    assert (H2n : 0 < 2 ^ n) by (apply Z.pow_pos_nonneg; lia).
    set (q := Zpos M / 2 ^ n) in Hr.
    assert (Hq : q * 2 ^ n <= Zpos M < (q + 1) * 2 ^ n).
    { unfold q. pose proof (Z.mul_div_le (Zpos M) (2 ^ n) H2n).
      pose proof (Z.mul_succ_div_gt (Zpos M) (2 ^ n) H2n). lia. }
    destruct Hr as [[_ Hq0]|[[Hinf _]|[m2 [e2 [Hr [_ Hcase]]]]]].
    + exfalso. rewrite Hq0 in Hq. lia.
    + rewrite Hinf in Hfin. discriminate.
    + rewrite Hr.
      assert (He2 : E <= e2) by (destruct Hcase as [[-> _]|[-> _]]; lia).
      exists (Zpos m2 * 2 ^ (e2 - E) - Zpos M). split.
      * destruct Hcase as [[-> Hm2]|[-> [Hm2 Hq1]]].
        -- replace (e1 - E) with n by lia. nia.
        -- replace (e1 + 1 - E) with (n + 1) by lia.
           rewrite Z.pow_add_r, Hm2 by lia.
           replace (2 ^ 23 * (2 ^ n * 2 ^ 1)) with ((q + 1) * 2 ^ n) by (rewrite Hq1; lia).
           nia.
      * rewrite (to_Q_scaled s m2 e2 E He2).
        replace (Zpos M + (Zpos m2 * 2 ^ (e2 - E) - Zpos M))
          with (Zpos m2 * 2 ^ (e2 - E)) by lia.
        reflexivity.
  - (* the mantissa is shifted left: exact *)
    intros Hfin _.
    assert (Hcan : fexp F32.prec F32.emax (Zpos (digits2_pos (Pos.iter xO M p)) + e1) = e1).
    { rewrite fexp_eq, digits2_pos_log2, pos_iter_xO, log2_mul_pow2 by lia. lia. }
    rewrite binary_round_aux_canonical in * by exact Hcan.
    destruct (e1 <=? F32.emax - F32.prec); [|discriminate].
    exists 0. split; [simpl; lia|]. rewrite Z.add_0_r.
    assert (HEe : e1 <= E) by lia.
    unfold F32.to_Q. rewrite pos_iter_xO.
    replace (Zpos p) with (E - e1) by lia.
    symmetry. exact (to_Q_scaled s M E e1 HEe).
Qed.

Lemma Qabs_zero_le c t : (0 <= c)%Q -> (Qabs 0 <= c * Qabs t)%Q.
Proof.
  intros Hc. change (Qabs 0) with 0%Q.
  apply Qmult_le_0_compat; [exact Hc|apply Qabs_nonneg].
Qed.

(** One binary32 addition of finite numbers, when it does not overflow, is
    within a relative [2^-23] of the exact sum. *)
Lemma add_round_error a b :
  F32.finite a = true -> F32.finite b = true ->
  F32.finite (F32.add a b) = true ->
  (Qabs (F32.to_Q (F32.add a b) - (F32.to_Q a + F32.to_Q b))
   <= (1 # 8388608) * Qabs (F32.to_Q a + F32.to_Q b))%Q.
Proof.
  intros Ha Hb Hfin.
  assert (Hexact : forall u v t : Q, (u == v)%Q -> (Qabs (u - v) <= (1 # 8388608) * Qabs t)%Q).
  { intros u v t Huv.
    assert (Hz : (u - v == 0)%Q) by (rewrite Huv; ring).
    rewrite Hz. apply Qabs_zero_le. discriminate. }
  destruct a as [sa|sa| |sa ma ea]; try discriminate;
    destruct b as [sb|sb| |sb mb eb]; try discriminate.
  - apply Hexact. destruct sa, sb; reflexivity.
  - apply Hexact. cbn [F32.add SFadd F32.to_Q]. ring.
  - apply Hexact. cbn [F32.add SFadd F32.to_Q]. ring.
  - revert Hfin. unfold F32.add, SFadd.
    cbn [F32.finite] in Ha, Hb.
    apply bounded_inv in Ha, Hb. destruct Ha as (Hea & _), Hb as (Heb & _).
    set (ez := Z.min ea eb).
    rewrite !shl_align_value by (unfold ez; lia).
    rewrite (to_Q_scaled sa ma ea ez) by (unfold ez; lia).
    rewrite (to_Q_scaled sb mb eb ez) by (unfold ez; lia).
    set (A := cond_Zopp sa (Zpos ma * 2 ^ (ea - ez))).
    set (B := cond_Zopp sb (Zpos mb * 2 ^ (eb - ez))).
    assert (Hsum : (inject_Z A * Qpower 2 ez + inject_Z B * Qpower 2 ez
                    == inject_Z (A + B) * Qpower 2 ez)%Q).
    { rewrite inject_Z_plus. ring. }
    rewrite Hsum. clearbody A B.
    destruct (A + B) as [|M|M] eqn:HS; cbn [binary_normalize]; intros Hfin.
    + apply Hexact. cbn [F32.to_Q]. ring.
    + destruct (binary_round_error false M ez ltac:(unfold ez; lia) Hfin)
        as (D & HD & ->).
      cbn [cond_Zopp].
      assert (Hdiff : (inject_Z (Zpos M + D) * Qpower 2 ez - inject_Z (Zpos M) * Qpower 2 ez
                       == inject_Z D * Qpower 2 ez)%Q).
      { rewrite inject_Z_plus. ring. }
      rewrite Hdiff, !Qabs_scaled, Qmult_assoc.
      apply Qmult_le_compat_r; [|apply Qpower2_nonneg].
      unfold Qle. cbn. lia.
    + destruct (binary_round_error true M ez ltac:(unfold ez; lia) Hfin)
        as (D & HD & ->).
      cbn [cond_Zopp].
      assert (Hdiff : (inject_Z (- (Zpos M + D)) * Qpower 2 ez - inject_Z (Zneg M) * Qpower 2 ez
                       == inject_Z (- D) * Qpower 2 ez)%Q).
      { rewrite <- Pos2Z.opp_pos, !inject_Z_opp, inject_Z_plus. ring. }
      rewrite Hdiff, !Qabs_scaled, Qmult_assoc.
      apply Qmult_le_compat_r; [|apply Qpower2_nonneg].
      unfold Qle. cbn. lia.
Qed.

(* ------------------------------------------------------------------------- *)
(** ** Collision, game over and the score (C1) *)
(* ------------------------------------------------------------------------- *)

(** C1, as amended.  If a frame starts in PLAYING and one of the enemies it
    leaves overlaps the box of the player it leaves (the test the loop makes,
    after the player moved and the enemy fell), then the frame ends in
    GAME_OVER and the best score is the maximum of its old value and the
    floor of the score the frame started with; this needs the score to fit an
    [int] and the old best score not to be negative, which is when the code's
    truncating comparison agrees with floor.  If a frame starts in GAME_OVER
    and R is not pressed, the score is unchanged. *)
Theorem collision_ends_run_and_game_over_keeps_score s i g :
  let s' := fst (update s i g) in
  (state s = PLAYING ->
   (exists e, In e (enemies s') /\
              CheckCollisionRecs (rect (player s')) (erect e) = true) ->
   F32.int_representable (score s) = true ->
   0 <= bestScore s ->
   state s' = GAME_OVER /\
   bestScore s' = Z.max (bestScore s) (F32.floor (score s)))
  /\
  (state s = GAME_OVER -> pressed_R i = false -> score s' = score s).
Proof.
  intros s'. split.
  - intros Hst Hex Hrep Hbest. unfold s', update in *. rewrite Hst in *.
    destruct (update_playing_fields s i g) as (He & Hs & Hb & Hp & _).
    cbv zeta in He, Hs, Hb, Hp. rewrite Hp, He in Hex. rewrite Hs, Hb.
    apply existsb_hits in Hex.
    destruct (enemies_loop_spec (rect (step_player (player s) i)) (frame_time i)
                (score s) (enemies s) (state s) (bestScore s) g) as [Ht _].
    destruct (Ht Hex) as [-> ->]. split; [reflexivity|].
    apply max_to_int_floor; assumption.
  - intros Hst HR. unfold s', update, update_game_over. rewrite Hst, HR.
    unfold bind, ret. destruct (pressed_ESCAPE i); reflexivity.
Qed.

(** The theorem at the run in which [blocker] sits on the player, and at a
    finished run in which SPACE is pressed. *)
Lemma collision_ends_run_witness :
  (state (fst (update colliding_run (held false false false false (F32.of_int 0))
                 (constant_rng 0))) = GAME_OVER /\
   bestScore (fst (update colliding_run (held false false false false (F32.of_int 0))
                     (constant_rng 0)))
   = Z.max 50 (F32.floor (F32.of_int 90)))
  /\ score (fst (update finished_run press_SPACE (constant_rng 0)))
     = score finished_run.
Proof.
  split.
  - apply (proj1 (collision_ends_run_and_game_over_keeps_score colliding_run
                    (held false false false false (F32.of_int 0)) (constant_rng 0))).
    + reflexivity.
    + exists (fall (F32.of_int 0) blocker).
      split; [left; reflexivity|reflexivity].
    + reflexivity.
    + simpl. lia.
  - apply (proj2 (collision_ends_run_and_game_over_keeps_score finished_run
                    press_SPACE (constant_rng 0))); reflexivity.
Defined.

(** C1 as stated fails: a frame that begins in GAME_OVER with R pressed
    resets the score from 100 to 0. *)
Lemma restart_frame_resets_score :
  state finished_run = GAME_OVER /\
  score (fst (update finished_run press_R (constant_rng 0))) = F32.of_int 0 /\
  score (fst (update finished_run press_R (constant_rng 0))) <> score finished_run.
Proof.
  split; [reflexivity|]. split; [reflexivity|]. vm_compute. discriminate.
Qed.

(* ------------------------------------------------------------------------- *)
(** ** The player stays on screen (C2) *)
(* ------------------------------------------------------------------------- *)

(** C2.  After every PLAYING frame the player's box lies in
    [0, SCREEN_W - width] x [0, SCREEN_H - height], whatever keys are held,
    for every finite frame time and every finite prior position of the
    36 by 36 player moving at speed 260. *)
Theorem player_box_stays_on_screen s i g :
  state s = PLAYING ->
  player_wf (player s) ->
  F32.finite (frame_time i) = true ->
  inside_screen (rect (player (fst (update s i g)))).
Proof.
  intros Hst Hp Hdt. unfold update. rewrite Hst.
  destruct (update_playing_fields s i g) as (_ & _ & _ & -> & _).
  apply step_player_clamped; assumption.
Qed.

Lemma player_box_stays_on_screen_witness :
  inside_screen
    (rect (player (fst (update colliding_run (held true false true false one_64th)
                          (constant_rng 0))))).
Proof.
  apply (player_box_stays_on_screen colliding_run
           (held true false true false one_64th) (constant_rng 0)).
  - reflexivity.
  - unfold player_wf. repeat split; reflexivity.
  - reflexivity.
Defined.

(* ------------------------------------------------------------------------- *)
(** ** Spawn position (C3) *)
(* ------------------------------------------------------------------------- *)

(** C3, the code at a failing input.  With cloudy weather and raw draws 760
    (x), 0 (y) and 32 (width 40 + 32 = 72), the first enemy [ResetGame]
    spawns has x = 760 and x + width = 832 > SCREEN_W: the spawn draws x from
    [0, SCREEN_W - 40] whatever the width, where recycling uses
    [SCREEN_W - (int)width]. *)
Theorem cloud_spawned_past_right_edge :
  let es := snd (fst (fst (ResetGame CLOUDY fresh_player ENEMY_COUNT
                             (replay [760; 0; 32])))) in
  exists e, hd_error es = Some e /\
    x (erect e) = F32.of_int 760 /\
    width (erect e) = F32.of_int 72 /\
    F32.add (x (erect e)) (width (erect e)) = F32.of_int 832 /\
    F32.gtb (F32.add (x (erect e)) (width (erect e))) (F32.of_int SCREEN_W) = true.
Proof.
  cbv zeta.
  exists (fst (spawn_enemy CLOUDY (replay [760; 0; 32]))).
  repeat split; vm_compute; reflexivity.
Qed.

(* ------------------------------------------------------------------------- *)
(** ** Recycling (C4, C6) *)
(* ------------------------------------------------------------------------- *)

(** C4, as amended.  When an enemy of integral width [w] is recycled, its new
    x is [(float)xi] for a draw [xi] from [0, SCREEN_W - w] and its new y is
    [(float)yi] for a draw [yi] from [-200, -20] (not from the spawning band
    [-SCREEN_H, -20]); every such pair of values is produced by some state of
    the generator, so the two ranges are exactly the supports. *)
Theorem recycled_position_support e dt w :
  width (erect e) = F32.of_int w -> 0 <= w <= SCREEN_W ->
  below_bottom (fall dt e) = true ->
  (forall g, exists xi yi,
     x (erect (fst (update_enemy dt e g))) = F32.of_int xi /\
     y (erect (fst (update_enemy dt e g))) = F32.of_int yi /\
     0 <= xi <= SCREEN_W - w /\ -200 <= yi <= -20) /\
  (forall xi yi, 0 <= xi <= SCREEN_W - w -> -200 <= yi <= -20 ->
     exists g,
       x (erect (fst (update_enemy dt e g))) = F32.of_int xi /\
       y (erect (fst (update_enemy dt e g))) = F32.of_int yi).
Proof.
  intros Hw Hrange Hbelow. split.
  - intros g. rewrite update_enemy_recycles by assumption.
    destruct (recycle_shape (fall dt e) g w Hw Hrange)
      as (xi & yi & g' & Hy & Hx & ->).
    exists xi, yi. cbn [erect x y]. auto.
  - intros xi yi Hx Hy. exists (replay [yi + 200; xi]).
    rewrite update_enemy_recycles by assumption.
    unfold recycle. cbn [fall erect width kind]. rewrite Hw.
    destruct (sub_screen_w w Hrange) as [_ ->].
    unfold bind, GetRandomValue, replay. cbn [draws cursor nth].
    destruct (kind_speed (kind e) _) as [sp g2].
    unfold ret. cbn [fst erect x y].
    unfold SCREEN_W in *.
    rewrite !Z.min_l, !Z.max_r by lia.
    rewrite !Z.mod_small by lia. split; f_equal; lia.
Qed.

Lemma recycled_position_support_witness :
  (forall g, exists xi yi,
     x (erect (fst (update_enemy (F32.of_int 0) fallen_enemy g))) = F32.of_int xi /\
     y (erect (fst (update_enemy (F32.of_int 0) fallen_enemy g))) = F32.of_int yi /\
     0 <= xi <= SCREEN_W - 20 /\ -200 <= yi <= -20) /\
  (forall xi yi, 0 <= xi <= SCREEN_W - 20 -> -200 <= yi <= -20 ->
     exists g,
       x (erect (fst (update_enemy (F32.of_int 0) fallen_enemy g))) = F32.of_int xi /\
       y (erect (fst (update_enemy (F32.of_int 0) fallen_enemy g))) = F32.of_int yi).
Proof.
  apply (recycled_position_support fallen_enemy (F32.of_int 0) 20).
  - reflexivity.
  - unfold SCREEN_W. lia.
  - reflexivity.
Defined.

(** C4 as stated fails: spawning can place an enemy at y = -SCREEN_H, but
    no state of the generator makes recycling do so. *)
Lemma recycle_never_reaches_spawn_top :
  below_bottom (fall (F32.of_int 0) fallen_enemy) = true /\
  y (erect (fst (spawn_enemy SUNNY (constant_rng 0)))) = F32.of_int (- SCREEN_H) /\
  ~ (exists g, y (erect (fst (update_enemy (F32.of_int 0) fallen_enemy g)))
               = F32.of_int (- SCREEN_H)).
Proof.
  split; [reflexivity|]. split; [reflexivity|].
  intros [g H].
  rewrite update_enemy_recycles in H by reflexivity.
  destruct (recycle_shape (fall (F32.of_int 0) fallen_enemy) g 20)
    as (xi & yi & g' & Hy & Hx & Heq);
    [reflexivity|unfold SCREEN_W; lia|].
  rewrite Heq in H. cbn [erect y] in H.
  destruct (falling_range yi Hy) as [_ Hne].
  rewrite H in Hne. vm_compute in Hne. discriminate.
Qed.

(** C6.  An enemy of integral width that is recycled gets y in
    [-200, -20], x in [0, SCREEN_W - width] for its own width, a speed in the
    range of its kind, and keeps its kind. *)
Theorem recycled_enemy_ranges e dt g w :
  width (erect e) = F32.of_int w -> 0 <= w <= SCREEN_W ->
  below_bottom (fall dt e) = true ->
  let e' := fst (update_enemy dt e g) in
  F32.between (-200) (-20) (y (erect e')) = true /\
  F32.leb (F32.of_int 0) (x (erect e')) = true /\
  F32.leb (x (erect e')) (F32.sub (F32.of_int SCREEN_W) (width (erect e'))) = true /\
  (kind e = RAINY -> F32.between 220 360 (speedY e') = true) /\
  (kind e = CLOUDY -> F32.between 120 180 (speedY e') = true) /\
  (kind e = SUNNY -> F32.between 160 260 (speedY e') = true) /\
  kind e' = kind e.
Proof.
  intros Hw Hrange Hbelow. cbv zeta.
  rewrite update_enemy_recycles by assumption.
  destruct (recycle_shape (fall dt e) g w Hw Hrange)
    as (xi & yi & g' & Hy & Hx & ->).
  cbn [erect x y width height speedY kind fall].
  destruct (kind_speed_range (kind e) g') as (Hr & Hc & Hs).
  rewrite Hw. unfold SCREEN_W in *.
  destruct (sub_screen_w w Hrange) as [-> _].
  repeat split; try assumption.
  - apply falling_range; assumption.
  - apply of_int_le; lia.
  - apply of_int_le; lia.
  - intros Hk. apply Hs; rewrite Hk; discriminate.
Qed.

Lemma recycled_enemy_ranges_witness :
  let e' := fst (update_enemy (F32.of_int 0) fallen_enemy (constant_rng 7)) in
  F32.between (-200) (-20) (y (erect e')) = true /\
  F32.leb (F32.of_int 0) (x (erect e')) = true /\
  F32.leb (x (erect e')) (F32.sub (F32.of_int SCREEN_W) (width (erect e'))) = true /\
  (kind fallen_enemy = RAINY -> F32.between 220 360 (speedY e') = true) /\
  (kind fallen_enemy = CLOUDY -> F32.between 120 180 (speedY e') = true) /\
  (kind fallen_enemy = SUNNY -> F32.between 160 260 (speedY e') = true) /\
  kind e' = kind fallen_enemy.
Proof.
  apply (recycled_enemy_ranges fallen_enemy (F32.of_int 0) (constant_rng 7) 20).
  - reflexivity.
  - unfold SCREEN_W. lia.
  - reflexivity.
Defined.

(* ------------------------------------------------------------------------- *)
(** ** Reset in the rain (C5) *)
(* ------------------------------------------------------------------------- *)

(** C5.  [ResetGame] called with a count [n >= 0] while the weather is RAINY
    leaves exactly [n] enemies, each with width in [3, 6], height in
    [14, 24], speed in [220, 360] and kind RAINY. *)
Theorem reset_in_rain_spawns_rain_drops p n g :
  0 <= n ->
  let es := snd (fst (fst (ResetGame RAINY p n g))) in
  Z.of_nat (length es) = n /\ Forall rain_drop es.
Proof.
  intros Hn es. unfold es.
  destruct (ResetGame_fields RAINY p n g) as (_ & -> & _).
  split.
  - rewrite spawn_enemies_length. lia.
  - apply spawn_enemies_Forall. apply spawn_enemy_rain.
Qed.

Lemma reset_in_rain_witness :
  let es := snd (fst (fst (ResetGame RAINY fresh_player ENEMY_COUNT
                             (constant_rng 5)))) in
  Z.of_nat (length es) = ENEMY_COUNT /\ Forall rain_drop es.
Proof.
  apply (reset_in_rain_spawns_rain_drops fresh_player ENEMY_COUNT (constant_rng 5)).
  unfold ENEMY_COUNT. lia.
Defined.

(* ------------------------------------------------------------------------- *)
(** ** The diagonal step (C7) *)
(* ------------------------------------------------------------------------- *)

(** C7.  For the player as [ResetGame] leaves it (speed 260, finite
    position) the step clamps the box moved by the displacement
    [move * speed * dt].  When a diagonal direction is held, the direction
    vector is normalised: both components have magnitude
    [1.0f / sqrtf(2.0f) = 0.70710677], so its squared length lies strictly
    between [1 - 2^-24] and 1.  The two components of the displacement have
    the same magnitude and, whenever the displacement does not overflow, its
    length is speed * dt up to binary32 rounding, and not
    speed * dt * sqrt 2: the squared length is within two per cent of
    [(260 * dt)^2] for every positive frame time, subnormal ones included,
    and within a factor [1 +- 2^-21] of it for every positive normal frame
    time.  The move made before clamping is this displacement up to the
    rounding of one addition: each new coordinate is within a relative
    [2^-23] of the old coordinate plus the displacement component.  When no
    direction results from the keys, the direction vector is the zero vector
    and is not normalised. *)
Theorem diagonal_step_is_normalised p i :
  player_wf p ->
  let dir := direction i in
  let d := displacement dir (speed p) (frame_time i) in
  let moved := move_rect (rect p) d in
  let L := ((260 * F32.to_Q (frame_time i)) * (260 * F32.to_Q (frame_time i)))%Q in
  rect (step_player p i) = clamp_rect moved /\
  (diagonal i = true ->
     SFabs (vx dir) = inv_sqrt2 /\ SFabs (vy dir) = inv_sqrt2 /\
     (1 - (1 # 16777216) < sq_norm dir /\ sq_norm dir < 1)%Q /\
     SFabs (vx d) = SFabs (vy d) /\
     (F32.finite (vx d) = true ->
        (positive_time (frame_time i) = true ->
           ((49 # 50) * L <= sq_norm d /\ sq_norm d <= (51 # 50) * L)%Q) /\
        (normal_time (frame_time i) = true ->
           ((1 - (1 # 2097152)) * L <= sq_norm d /\
            sq_norm d <= (1 + (1 # 2097152)) * L)%Q) /\
        (F32.finite (x moved) = true ->
           (Qabs (F32.to_Q (x moved) - (F32.to_Q (x (rect p)) + F32.to_Q (vx d)))
            <= (1 # 8388608) * Qabs (F32.to_Q (x (rect p)) + F32.to_Q (vx d)))%Q) /\
        (F32.finite (y moved) = true ->
           (Qabs (F32.to_Q (y moved) - (F32.to_Q (y (rect p)) + F32.to_Q (vy d)))
            <= (1 # 8388608) * Qabs (F32.to_Q (y (rect p)) + F32.to_Q (vy d)))%Q)))
  /\
  (no_direction i = true ->
     raw_direction i = mkVector2 (F32.of_int 0) (F32.of_int 0) /\
     dir = raw_direction i).
Proof.
  intros (_ & _ & Hs & Hfx & Hfy). cbv zeta.
  split; [reflexivity|]. rewrite Hs. split.
  - intros Hdiag.
    destruct (diagonal_direction i Hdiag) as (sx & sy & Hdir).
    split; [rewrite Hdir; reflexivity|].
    split; [rewrite Hdir; reflexivity|].
    split.
    { rewrite Hdir. unfold sq_norm. cbn [vx vy].
      destruct sx, sy; split; reflexivity. }
    assert (Habs : SFabs (vx (displacement (direction i) (F32.of_int 260) (frame_time i)))
                   = SFabs (vy (displacement (direction i) (F32.of_int 260) (frame_time i)))).
    { rewrite Hdir. unfold displacement. cbn [vx vy]. rewrite !diag_speed.
      apply mul_abs_sign. }
    split; [exact Habs|].
    intros Hfin.
    assert (Hfin' : F32.finite (vy (displacement (direction i) (F32.of_int 260)
                                      (frame_time i))) = true).
    { rewrite <- finite_abs, <- Habs, finite_abs. exact Hfin. }
    split; [intros Hdt; apply diagonal_displacement_coarse; assumption|].
    split; [intros Hdt; apply diagonal_displacement_bounds; assumption|].
    unfold move_rect. cbn [x y].
    split; intros Hr; apply add_round_error; assumption.
  - apply no_direction_skips.
Qed.

(** The theorem with right and down held for 1/64 s from the start
    position, and with no key held. *)
Lemma diagonal_step_witness :
  let p := fresh_player in
  let i := held true false true false one_64th in
  let d := displacement (direction i) (speed p) (frame_time i) in
  let moved := move_rect (rect p) d in
  let L := ((260 * F32.to_Q (frame_time i)) * (260 * F32.to_Q (frame_time i)))%Q in
  (SFabs (vx (direction i)) = inv_sqrt2 /\
   SFabs (vx d) = SFabs (vy d) /\
   ((1 - (1 # 2097152)) * L <= sq_norm d /\
    sq_norm d <= (1 + (1 # 2097152)) * L)%Q /\
   (Qabs (F32.to_Q (x moved) - (F32.to_Q (x (rect p)) + F32.to_Q (vx d)))
    <= (1 # 8388608) * Qabs (F32.to_Q (x (rect p)) + F32.to_Q (vx d)))%Q)
  /\ direction (held false false false false one_64th)
     = raw_direction (held false false false false one_64th).
Proof.
  assert (Hwf : player_wf fresh_player).
  { unfold player_wf. repeat split; reflexivity. }
  cbv zeta. split.
  - destruct (diagonal_step_is_normalised fresh_player
                (held true false true false one_64th) Hwf) as (_ & Hd & _).
    destruct (Hd eq_refl) as (A & _ & _ & D & E).
    destruct (E eq_refl) as (_ & F & G & _).
    split; [exact A|]. split; [exact D|].
    split; [apply F; reflexivity|apply G; reflexivity].
  - apply (proj2 (proj2 (diagonal_step_is_normalised fresh_player
                           (held false false false false one_64th) Hwf)) eq_refl).
Defined.

(** The equality is one of binary32 values, not of real numbers: with right
    and down held for 1/64 s the squared length of the displacement is not
    the rational [(260 / 64)^2], only within the bound above. *)
Lemma diagonal_displacement_is_rounded :
  let i := held true false true false one_64th in
  let d := displacement (direction i) (speed fresh_player) (frame_time i) in
  diagonal i = true /\
  F32.gtb (frame_time i) (F32.of_int 0) = true /\
  ~ (sq_norm d == (260 * F32.to_Q (frame_time i)) * (260 * F32.to_Q (frame_time i)))%Q.
Proof.
  cbv zeta. split; [reflexivity|]. split; [reflexivity|].
  vm_compute. discriminate.
Qed.

(* ------------------------------------------------------------------------- *)
(** ** Frame times that are not positive (C8) *)
(* ------------------------------------------------------------------------- *)

(** C8, as amended.  For the player moving at speed 260 from a finite
    position, a frame time of zero gives a zero displacement, whatever keys
    are held, and leaves the position (before clamping) where it was. *)
Theorem zero_frame_time_leaves_player_in_place p i :
  speed p = F32.of_int 260 ->
  F32.is_zero (frame_time i) = true ->
  F32.finite (x (rect p)) = true -> F32.finite (y (rect p)) = true ->
  let d := displacement (direction i) (speed p) (frame_time i) in
  F32.is_zero (vx d) = true /\ F32.is_zero (vy d) = true /\
  F32.eqb (x (move_rect (rect p) d)) (x (rect p)) = true /\
  F32.eqb (y (move_rect (rect p) d)) (y (rect p)) = true.
Proof.
  intros Hs Hdt Hx Hy. cbv zeta. rewrite Hs.
  destruct (frame_time i) as [sz| | |]; try discriminate.
  destruct (direction_speed_finite i) as [Hfx Hfy].
  unfold displacement, move_rect. cbn [vx vy x y].
  pose proof (mul_zero_r _ sz Hfx) as Hzx.
  pose proof (mul_zero_r _ sz Hfy) as Hzy.
  repeat split; try assumption; apply add_zero_r; assumption.
Qed.

Lemma zero_frame_time_witness :
  let i := held true false false false (F32.of_int 0) in
  let d := displacement (direction i) (speed fresh_player) (frame_time i) in
  F32.is_zero (vx d) = true /\ F32.is_zero (vy d) = true /\
  F32.eqb (x (move_rect (rect fresh_player) d)) (x (rect fresh_player)) = true /\
  F32.eqb (y (move_rect (rect fresh_player) d)) (y (rect fresh_player)) = true.
Proof.
  apply (zero_frame_time_leaves_player_in_place fresh_player
           (held true false false false (F32.of_int 0))); reflexivity.
Defined.

(** C8 as stated fails: with right held and a frame time of -1 the
    displacement is -260 and the player moves from x = 382 to x = 122. *)
Lemma negative_frame_time_moves_player :
  let i := held true false false false (F32.of_int (-1)) in
  let d := displacement (direction i) (speed fresh_player) (frame_time i) in
  F32.leb (frame_time i) (F32.of_int 0) = true /\
  vx d = F32.of_int (-260) /\
  F32.is_zero (vx d) = false /\
  x (rect fresh_player) = F32.of_int 382 /\
  x (rect (step_player fresh_player i)) = F32.of_int 122.
Proof.
  cbv zeta. repeat split.
Qed.

(* ------------------------------------------------------------------------- *)
(** ** Out-of-range weather values (C9) *)
(* ------------------------------------------------------------------------- *)

(** C9, as amended.  [SetWeather] stores any integer.  After a value [k]
    outside {0, 1, 2}, every enemy [ResetGame] spawns has the size and speed
    of a sun disc and the kind field [k]; and when an enemy with that kind
    field is recycled it draws a sun speed and keeps the kind field [k]. *)
Theorem out_of_range_weather_falls_back_to_sun_ranges k s n g :
  ~ (0 <= k <= 2) ->
  let s1 := SetWeather k s in
  gWeather s1 = k /\
  Forall (sun_disc k) (snd (fst (fst (ResetGame (gWeather s1) (player s1) n g)))) /\
  (forall e dt g', kind e = k -> below_bottom (fall dt e) = true ->
     F32.between 160 260 (speedY (fst (update_enemy dt e g'))) = true /\
     kind (fst (update_enemy dt e g')) = k).
Proof.
  intros Hk. cbv zeta. cbn [SetWeather gWeather player].
  split; [reflexivity|]. split.
  - destruct (ResetGame_fields k (player s) n g) as (_ & -> & _).
    apply spawn_enemies_Forall. intros g0. apply spawn_enemy_default; lia.
  - intros e dt g' Hkind Hbelow.
    rewrite update_enemy_recycles by assumption.
    unfold recycle, bind, GetRandomValue. cbn [fall kind erect width].
    match goal with |- context [kind_speed (kind e) ?g0] =>
      pose proof (kind_speed_range (kind e) g0) as (_ & _ & Hsun);
      destruct (kind_speed (kind e) g0) as [sp g2] end.
    unfold ret. cbn [fst speedY kind] in *.
    split; [|assumption].
    apply Hsun; unfold RAINY, CLOUDY; lia.
Qed.

Lemma out_of_range_weather_witness :
  let s1 := SetWeather 7 finished_run in
  gWeather s1 = 7 /\
  Forall (sun_disc 7)
    (snd (fst (fst (ResetGame (gWeather s1) (player s1) ENEMY_COUNT
                      (constant_rng 3))))) /\
  (forall e dt g', kind e = 7 -> below_bottom (fall dt e) = true ->
     F32.between 160 260 (speedY (fst (update_enemy dt e g'))) = true /\
     kind (fst (update_enemy dt e g')) = 7).
Proof.
  apply (out_of_range_weather_falls_back_to_sun_ranges 7 finished_run ENEMY_COUNT
           (constant_rng 3)).
  lia.
Defined.

(** C9 as stated fails: after [SetWeather(7)] the enemies spawned by
    starting a game from the menu carry the kind 7, which is none of the
    three weather kinds. *)
Lemma weather_7_spawns_kind_7 :
  let s0 := SetWeather 7 (fst (initial (constant_rng 0))) in
  let s1 := fst (update s0 press_SPACE (constant_rng 0)) in
  state s0 = MENU /\ state s1 = PLAYING /\
  map kind (enemies s1) = repeat 7 10%nat /\
  ~ Forall (fun e => kind e = SUNNY \/ kind e = CLOUDY \/ kind e = RAINY)
           (enemies s1).
Proof.
  cbv zeta. split; [reflexivity|]. split; [reflexivity|].
  split; [vm_compute; reflexivity|].
  intros H.
  assert (Hk : Forall (fun k => k = SUNNY \/ k = CLOUDY \/ k = RAINY)
                 (map kind (enemies (fst (update
                    (SetWeather 7 (fst (initial (constant_rng 0))))
                    press_SPACE (constant_rng 0)))))).
  { apply Forall_map. exact H. }
  replace (map kind _) with (repeat 7 10%nat) in Hk by (vm_compute; reflexivity).
  apply Forall_inv in Hk. unfold SUNNY, CLOUDY, RAINY in Hk. lia.
Qed.

(* ------------------------------------------------------------------------- *)
(** ** Restart and back in the same frame (C10) *)
(* ------------------------------------------------------------------------- *)

(** C10.  In a GAME_OVER frame in which both R and ESC are pressed, the
    reset is performed (player, enemies and score are those [ResetGame]
    returns: the score is 0, the player is at the start rectangle, ten
    enemies are spawned) and the resulting state is MENU. *)
Theorem restart_and_back_resets_to_menu s i g :
  state s = GAME_OVER -> pressed_R i = true -> pressed_ESCAPE i = true ->
  let s' := fst (update s i g) in
  let fresh := fst (ResetGame (gWeather s) (player s) ENEMY_COUNT g) in
  state s' = MENU /\
  (player s', enemies s', score s') = fresh /\
  score s' = F32.of_int 0 /\
  rect (player s') = start_rect /\
  length (enemies s') = 10%nat.
Proof.
  intros Hst HR HE. cbv zeta. unfold update, update_game_over.
  rewrite Hst, HR, HE. unfold bind.
  destruct (ResetGame_fields (gWeather s) (player s) ENEMY_COUNT g) as (Hp & He & Hs).
  cbv zeta in Hp, He, Hs.
  destruct (ResetGame (gWeather s) (player s) ENEMY_COUNT g) as [[[p es] sc] g1].
  cbn [fst snd ret state player enemies score] in *.
  subst p es sc. repeat split.
  apply spawn_enemies_length.
Qed.

Lemma restart_and_back_witness :
  let s' := fst (update finished_run press_R_and_ESCAPE (constant_rng 0)) in
  let fresh := fst (ResetGame (gWeather finished_run) (player finished_run)
                      ENEMY_COUNT (constant_rng 0)) in
  state s' = MENU /\
  (player s', enemies s', score s') = fresh /\
  score s' = F32.of_int 0 /\
  rect (player s') = start_rect /\
  length (enemies s') = 10%nat.
Proof.
  apply (restart_and_back_resets_to_menu finished_run press_R_and_ESCAPE
           (constant_rng 0)); reflexivity.
Defined.

(* ------------------------------------------------------------------------- *)
(** ** More facts about binary32: sums that do not go down, the clamp from
       inside *)
(* ------------------------------------------------------------------------- *)

Lemma fexp_mono a b : a <= b -> fexp F32.prec F32.emax a <= fexp F32.prec F32.emax b.
Proof. intros H. rewrite !fexp_eq. lia. Qed.

(** Adding a positive float to a canonical positive float does not go down. *)
Lemma add_pos_ge ma ea mb eb :
  bounded F32.prec F32.emax ma ea = true ->
  let r := F32.add (S754_finite false ma ea) (S754_finite false mb eb) in
  nonneg r = true /\ F32.leb (S754_finite false ma ea) r = true.
Proof.
  intros Hb r. unfold r, F32.add, SFadd. clear r.
  pose proof Hb as Hcan. unfold bounded, canonical_mantissa in Hcan.
  apply andb_true_iff in Hcan. destruct Hcan as [Hcan _]. apply Z.eqb_eq in Hcan.
  apply bounded_inv in Hb. destruct Hb as (Hea & Hla & _).
  set (ez := Z.min ea eb).
  change (cond_Zopp false ?z) with z.
  rewrite <- Pos2Z.inj_add. cbn [binary_normalize].
  set (P := (fst (shl_align ma ea ez) + fst (shl_align mb eb ez))%positive).
  assert (HP : Zpos ma * 2 ^ (ea - ez) < Zpos P).
  { unfold P. rewrite Pos2Z.inj_add, shl_align_value by (unfold ez; lia). lia. }
  assert (Hpow : 0 < 2 ^ (ea - ez)) by (apply Z.pow_pos_nonneg; unfold ez; lia).
  assert (HlogP : Z.log2 (Zpos ma) + (ea - ez) <= Z.log2 (Zpos P)).
  { rewrite <- log2_mul_pow2 by (unfold ez; lia). apply Z.log2_le_mono. lia. }
  pose proof (binary_round_spec false P ez) as Hr. cbv zeta in Hr.
  set (e1 := fexp F32.prec F32.emax (Zpos (digits2_pos P) + ez)) in Hr.
  assert (He1 : ea <= e1).
  { rewrite <- Hcan. unfold e1. apply fexp_mono. rewrite !digits2_pos_log2. lia. }
  unfold F32.scaled in Hr.
  replace (ez <=? e1) with true in Hr by (symmetry; apply Z.leb_le; unfold ez; lia).
  set (n := e1 - ez) in Hr.
  assert (Hn : 0 <= n) by (unfold n, ez; lia).
  assert (H2n : 0 < 2 ^ n) by (apply Z.pow_pos_nonneg; lia).
  destruct Hr as [[_ Hq]|[[-> _]|[m2 [e2 [-> [Hb2 Hcase]]]]]].
  - exfalso. apply div_pow2_zero in Hq; try lia.
    assert (He1v : e1 = Z.max (Z.log2 (Zpos P) + 1 + ez - 24) (-149))
      by (unfold e1; rewrite fexp_eq, digits2_pos_log2; reflexivity).
    pose proof (Z.log2_nonneg (Zpos ma)). unfold n in Hq. lia.
  - split; reflexivity.
  - split.
    + unfold nonneg, F32.number. cbn. rewrite Hb2. reflexivity.
    + unfold F32.leb, SFleb. cbn [SFcompare].
      destruct Hcase as [[-> Hq]|[-> _]].
      * destruct (Z.compare_spec ea e1) as [Heq|Hlt|Hgt]; [|reflexivity|lia].
        change (Pos.compare_cont Eq ?p ?q) with (Pos.compare p q).
        assert (Hle : (ma <= m2)%positive).
        { assert (Zpos ma <= Zpos P / 2 ^ n); [|lia].
          apply Z.div_le_lower_bound; [lia|].
          unfold n. rewrite <- Heq. lia. }
        apply Pos.compare_le_iff in Hle.
        destruct (Pos.compare ma m2); try reflexivity. congruence.
      * destruct (Z.compare_spec ea (e1 + 1)); [lia|reflexivity|lia].
Qed.

Lemma leb_refl_finite v : F32.finite v = true -> F32.leb v v = true.
Proof.
  intros H. pose proof (eqb_refl_finite v H) as He.
  unfold F32.eqb, SFeqb, F32.leb, SFleb in *.
  destruct (SFcompare v v) as [[ | | ]|]; try discriminate; reflexivity.
Qed.

Lemma nonneg_cases f :
  nonneg f = true ->
  (exists s, f = S754_zero s) \/ f = S754_infinity false \/
  exists m e, f = S754_finite false m e /\ bounded F32.prec F32.emax m e = true.
Proof.
  unfold nonneg, F32.number.
  destruct f as [s|s| |s m e]; cbn; try discriminate.
  - intros _. left. eauto.
  - destruct s; [discriminate|]. intros _. right; left; reflexivity.
  - destruct s; [rewrite andb_true_r; intros H; apply andb_true_iff in H;
                 destruct H; discriminate|].
    rewrite !andb_true_r. intros H. right; right. eauto.
Qed.

(** Sums of non-negative numbers are non-negative and not below the first
    summand. *)
Lemma add_nonneg a b :
  nonneg a = true -> nonneg b = true ->
  nonneg (F32.add a b) = true /\ F32.leb a (F32.add a b) = true.
Proof.
  intros Ha Hb.
  destruct (nonneg_cases a Ha) as [[sa ->]|[->|(ma & ea & -> & Hba)]];
  destruct (nonneg_cases b Hb) as [[sb ->]|[->|(mb & eb & -> & Hbb)]].
  - destruct sa, sb; split; reflexivity.
  - split; reflexivity.
  - split; [exact Hb|reflexivity].
  - split; reflexivity.
  - split; reflexivity.
  - split; reflexivity.
  - split; [exact Ha|]. apply leb_refl_finite. exact Hba.
  - split; reflexivity.
  - apply add_pos_ge. exact Hba.
Qed.

(** Products of finite non-negative numbers are non-negative. *)
Lemma mul_nonneg a b :
  F32.finite a = true -> F32.finite b = true ->
  nonneg a = true -> nonneg b = true -> nonneg (F32.mul a b) = true.
Proof.
  intros Hfa Hfb Ha Hb.
  pose proof (mul_number a b Hfa Hfb) as Hn.
  destruct (nonneg_cases a Ha) as [[sa ->]|[->|(ma & ea & -> & Hba)]];
    try discriminate;
  destruct (nonneg_cases b Hb) as [[sb ->]|[->|(mb & eb & -> & Hbb)]];
    try discriminate; try reflexivity.
  unfold nonneg. rewrite Hn. cbn [andb].
  unfold F32.mul, SFmul in *. cbn [xorb].
  apply bounded_inv in Hba, Hbb.
  pose proof (binary_round_aux_spec false (ma * mb) (ea + eb) loc_Exact) as Hr.
  cbv zeta in Hr.
  assert (Hpre : ea + eb <= fexp F32.prec F32.emax (Zpos (digits2_pos (ma * mb)) + (ea + eb))).
  { rewrite fexp_eq, digits2_pos_log2, Pos2Z.inj_mul.
    pose proof (Z.log2_mul_below (Zpos ma) (Zpos mb)).
    pose proof (Z.log2_nonneg (Zpos ma)). pose proof (Z.log2_nonneg (Zpos mb)).
    lia. }
  destruct (Hr Hpre) as [[-> _]|[[-> _]|[m2 [e2 [-> _]]]]]; reflexivity.
Qed.

(** A canonical float strictly below the bound [hi] plus 36 does not round
    above [hi + 36]. *)
Lemma add36_not_above m e k c t :
  0 < k -> 9437184 = c * 2 ^ k -> 2 ^ 23 <= t -> 0 <= c -> t + c < 2 ^ 24 ->
  k - 18 < 104 ->
  bounded F32.prec F32.emax m e = true ->
  (e < k - 18 \/ (e = k - 18 /\ Zpos m < t)) ->
  F32.gtb (F32.add (S754_finite false m e) (S754_finite false 9437184 (-18)))
          (S754_finite false (Z.to_pos (t + c)) (k - 18)) = false.
Proof.
  intros Hk Hc Ht Hc0 Htc Hk104 Hb Hbelow.
  apply bounded_inv in Hb. destruct Hb as (He & Hlm & _).
  pose proof (Z.log2_spec (Zpos m) ltac:(lia)) as Hm2.
  assert (Hm24 : Zpos m < 2 ^ 24).
  { eapply Z.lt_le_trans; [apply Hm2|]. apply Z.pow_le_mono_r; lia. }
  unfold F32.gtb, SFltb, F32.add, SFadd.
  set (ez := Z.min e (-18)).
  change (cond_Zopp false ?z) with z.
  rewrite <- Pos2Z.inj_add. cbn [binary_normalize].
  set (P := (fst (shl_align m e ez) + fst (shl_align 9437184 (-18) ez))%positive).
  set (et := k - 18) in *.
  assert (Hez : ez <= e /\ ez <= -18 /\ ez < et) by (unfold ez, et; lia).
  assert (HP : Zpos P = Zpos m * 2 ^ (e - ez) + 9437184 * 2 ^ (-18 - ez)).
  { unfold P. rewrite Pos2Z.inj_add, !shl_align_value by lia. reflexivity. }
  set (B := 2 ^ (-18 - ez)) in *.
  assert (HB : 0 < B) by (apply Z.pow_pos_nonneg; lia).
  assert (Hsplit : 2 ^ (et - ez) = 2 ^ k * B).
  { unfold B. rewrite <- Z.pow_add_r by lia. f_equal. unfold et. lia. }
  assert (Ha : Zpos m * 2 ^ (e - ez) < t * 2 ^ (et - ez)).
  { destruct Hbelow as [Hlt|[Heq Hmt]].
    - assert (Hp : 2 ^ (et - ez) = 2 ^ (et - e) * 2 ^ (e - ez)).
      { rewrite <- Z.pow_add_r by lia. f_equal. lia. }
      rewrite Hp.
      assert (0 < 2 ^ (e - ez)) by (apply Z.pow_pos_nonneg; lia).
      assert (2 <= 2 ^ (et - e)).
      { change 2 with (2 ^ 1) at 1. apply Z.pow_le_mono_r; lia. }
      change (2 ^ 24) with (2 * 2 ^ 23) in Hm24. nia.
    - rewrite Heq.
      assert (0 < 2 ^ (et - ez)) by (apply Z.pow_pos_nonneg; lia). nia. }
  assert (HLz : Zpos P < (t + c) * 2 ^ (et - ez)).
  { rewrite HP. rewrite Z.mul_add_distr_r.
    replace (c * 2 ^ (et - ez)) with (9437184 * B) by (rewrite Hsplit, Hc; ring).
    lia. }
  assert (Hlog_hi : Z.log2 (Zpos P) <= 23 + (et - ez)).
  { assert (Z.log2 (Zpos P) < 24 + (et - ez)); [|lia].
    apply Z.log2_lt_pow2; [lia|]. rewrite Z.pow_add_r by lia.
    assert (0 < 2 ^ (et - ez)) by (apply Z.pow_pos_nonneg; lia). nia. }
  assert (Hlog_lo : 23 + (-18 - ez) <= Z.log2 (Zpos P)).
  { change 23 with (Z.log2 9437184).
    rewrite <- log2_mul_pow2 by lia. apply Z.log2_le_mono. fold B. lia. }
  pose proof (binary_round_spec false P ez) as Hr. cbv zeta in Hr.
  rewrite fexp_eq, digits2_pos_log2 in Hr.
  set (e1 := Z.max (Z.log2 (Zpos P) + 1 + ez - 24) (-149)) in Hr.
  assert (He1 : ez <= e1 <= et) by (unfold e1, et in *; lia).
  unfold F32.scaled in Hr.
  replace (ez <=? e1) with true in Hr by (symmetry; apply Z.leb_le; lia).
  set (q := Zpos P / 2 ^ (e1 - ez)) in Hr.
  assert (Hq : e1 = et -> q < t + c).
  { intros Heq. unfold q. rewrite Heq.
    apply Z.div_lt_upper_bound; [apply Z.pow_pos_nonneg; lia|]. lia. }
  clearbody q.
  destruct Hr as [[-> _]|[[_ Hinf]|[m2 [e2 [-> [_ Hcase]]]]]].
  - reflexivity.
  - exfalso. unfold F32.emax, F32.prec in Hinf. lia.
  - cbn [SFcompare].
    destruct Hcase as [[-> Hm2']|[-> [Hm2' Hq1]]].
    + destruct (Z.compare_spec et e1) as [Heq|Hlt|Hgt]; [|lia|reflexivity].
      change (Pos.compare_cont Eq ?p ?q) with (Pos.compare p q).
      specialize (Hq (eq_sym Heq)).
      destruct (Pos.compare_spec (Z.to_pos (t + c)) m2); try reflexivity. exfalso. lia.
    + destruct (Z.compare_spec et (e1 + 1)) as [Heq|Hlt|Hgt]; [| |reflexivity].
      * change (Pos.compare_cont Eq ?p ?q) with (Pos.compare p q).
        destruct (Pos.compare_spec (Z.to_pos (t + c)) m2); try reflexivity.
        exfalso. lia.
      * exfalso. assert (e1 = et) by lia. specialize (Hq H). lia.
Qed.

(** One axis of the clamp leaves a finite value between 0 and [hi] as it
    is. *)
Lemma clamp_axis_inside v k c t :
  0 < k -> 9437184 = c * 2 ^ k -> 2 ^ 23 <= t -> 0 <= c -> t + c < 2 ^ 24 ->
  k - 18 < 104 ->
  let lim := S754_finite false (Z.to_pos (t + c)) (k - 18) in
  let hi := S754_finite false (Z.to_pos t) (k - 18) in
  let tt := S754_finite false 9437184 (-18) in
  F32.gtb tt lim = false -> F32.gtb (F32.add hi tt) lim = false ->
  F32.finite v = true ->
  F32.leb (S754_zero false) v = true -> F32.leb v hi = true ->
  (if F32.gtb (F32.add (if F32.ltb v (S754_zero false) then S754_zero false else v) tt) lim
   then hi else (if F32.ltb v (S754_zero false) then S754_zero false else v)) = v.
Proof.
  intros Hk Hc Ht Hc0 Htc Hk104 lim hi tt H36 Hhi36 Hfin H0 Hle.
  destruct v as [s|s| |s m e]; try discriminate.
  - change (F32.ltb (S754_zero s) (S754_zero false)) with false. cbv iota.
    replace (F32.add (S754_zero s) tt) with tt by (destruct s; reflexivity).
    rewrite H36. reflexivity.
  - destruct s; [discriminate|].
    change (F32.ltb (S754_finite false m e) (S754_zero false)) with false. cbv iota.
    cbn [F32.finite] in Hfin.
    unfold F32.leb, SFleb, hi in Hle. cbn [SFcompare] in Hle.
    destruct (Z.compare_spec e (k - 18)) as [Heq|Hlt|Hgt]; try discriminate.
    + change (Pos.compare_cont Eq ?p ?q) with (Pos.compare p q) in Hle.
      destruct (Pos.compare_spec m (Z.to_pos t)) as [Hmt|Hmt|Hmt]; try discriminate.
      * subst e m. fold hi. rewrite Hhi36. reflexivity.
      * unfold tt, lim. rewrite (add36_not_above m e k c t); try assumption;
          [reflexivity|right; lia].
    + unfold tt, lim. rewrite (add36_not_above m e k c t); try assumption;
        [reflexivity|left; lia].
Qed.

(* ------------------------------------------------------------------------- *)
(** ** Enemies along a frame *)
(* ------------------------------------------------------------------------- *)

Lemma kind_speed_ok k g : kind_speed_range_ok k (fst (kind_speed k g)) = true.
Proof.
  unfold kind_speed_range_ok.
  destruct (kind_speed_range k g) as (Hr & Hc & Hs).
  destruct (Z.eqb_spec k 2) as [H2|H2]; [apply Hr; assumption|].
  destruct (Z.eqb_spec k 1) as [H1|H1]; [apply Hc; assumption|].
  apply Hs; assumption.
Qed.

(** What [spawn_enemy] returns, in terms of the integers it draws. *)
Lemma spawn_enemy_form k g :
  exists xi yi w h sp,
    fst (spawn_enemy k g)
    = mkEnemy (mkRectangle (F32.of_int xi) (F32.of_int yi)
                           (F32.of_int w) (F32.of_int h)) sp k /\
    0 <= xi <= SCREEN_W - 40 /\ - SCREEN_H <= yi <= -20 /\
    kind_sizes k w h /\ kind_speed_range_ok k sp = true.
Proof.
  unfold spawn_enemy.
  pose proof (kind_speed_ok k) as Hsp. unfold kind_speed, kind_speed_range_ok in *.
  unfold kind_sizes.
  destruct (k =? 2) eqn:H2; [|destruct (k =? 1) eqn:H1].
  - unfold bind. draw_all. specialize (Hsp g3). unfold ret.
    destruct (rain_speed g3) as [sp g4]. cbn [fst] in *.
    exists v, v0, v1, v2, sp. repeat split; try assumption; lia.
  - unfold bind. draw_all. specialize (Hsp g3). unfold ret.
    destruct (cloud_speed g3) as [sp g4]. cbn [fst] in *.
    exists v, v0, v1, v2, sp. repeat split; try assumption; lia.
  - unfold bind. draw_all. specialize (Hsp g2). unfold ret.
    destruct (sun_speed g2) as [sp g3]. cbn [fst] in *.
    exists v, v0, v1, v1, sp. repeat split; try assumption; lia.
Qed.

Lemma spawn_enemy_shaped k g :
  well_shaped (fst (spawn_enemy k g)) /\ kind (fst (spawn_enemy k g)) = k.
Proof.
  destruct (spawn_enemy_form k g) as (xi & yi & w & h & sp & -> & Hx & Hy & Hsz & Hsp).
  split; [|reflexivity].
  exists xi, w, h. cbn [erect x width height kind speedY].
  repeat split; try assumption; lia.
Qed.

Lemma kind_sizes_width k w h : kind_sizes k w h -> 3 <= w <= 72.
Proof.
  unfold kind_sizes. destruct (k =? 2); [lia|]. destruct (k =? 1); lia.
Qed.

Lemma update_enemy_shaped dt e g :
  well_shaped e -> well_shaped (fst (update_enemy dt e g)).
Proof.
  intros (xi & w & h & Hx & Hxi & Hw & Hh & Hsz & Hsp).
  pose proof (kind_sizes_width _ _ _ Hsz) as Hwr.
  unfold update_enemy. destruct (below_bottom (fall dt e)).
  - destruct (recycle_shape (fall dt e) g w Hw) as (xi' & yi & g' & Hy & Hx' & ->);
      [unfold SCREEN_W; lia|].
    exists xi', w, h. cbn [erect x width height kind speedY fall].
    repeat split; try assumption; try lia.
    apply kind_speed_ok.
  - exists xi, w, h. cbn [fst ret fall erect x width height kind speedY].
    repeat split; try assumption; lia.
Qed.

(** After its update no enemy is below the recycling line. *)
Lemma update_enemy_not_below dt e g :
  below_bottom (fst (update_enemy dt e g)) = false.
Proof.
  unfold update_enemy. destruct (below_bottom (fall dt e)) eqn:Hb.
  - unfold recycle, bind. draw_all. unfold ret.
    destruct (GetRandomValue 0 _ g0) as [xi g1].
    destruct (kind_speed _ g1) as [sp g2].
    unfold below_bottom. cbn [fst erect y].
    pose (P := fun v => negb (F32.gtb (F32.of_int v) (F32.of_int (SCREEN_H + 10)))).
    assert (H : P v = true).
    { apply (all_from_spec P 181 (-200)); [vm_compute; reflexivity|lia]. }
    unfold P in H. apply negb_true_iff in H. exact H.
  - exact Hb.
Qed.

Lemma enemies_loop_enemies prect dt sc es : forall st best g,
  let es' := fst (fst (fst (enemies_loop prect dt sc es st best g))) in
  length es' = length es /\
  map kind es' = map kind es /\
  map (fun e => width (erect e)) es' = map (fun e => width (erect e)) es /\
  map (fun e => height (erect e)) es' = map (fun e => height (erect e)) es /\
  (Forall well_shaped es -> Forall well_shaped es') /\
  Forall (fun e => below_bottom e = false) es'.
Proof.
  induction es as [|e rest IH]; intros st best g; cbv zeta.
  - cbn. repeat split; auto.
  - cbn [enemies_loop]. unfold bind.
    pose proof (update_enemy_keeps_size_and_kind dt e g) as (Hw & Hh & Hk).
    pose proof (update_enemy_shaped dt e g) as Hsh.
    pose proof (update_enemy_not_below dt e g) as Hnb.
    destruct (update_enemy dt e g) as [e' g1]. cbn [fst] in *.
    match goal with |- context [enemies_loop prect dt sc rest ?st1 ?best1 g1] =>
      specialize (IH st1 best1 g1); cbv zeta in IH;
      destruct (enemies_loop prect dt sc rest st1 best1 g1) as [[[rest' st2] best2] g2]
    end.
    cbn [fst snd ret length map] in *.
    destruct IH as (IH1 & IH2 & IH3 & IH4 & IH5 & IH6).
    repeat split.
    + lia.
    + congruence.
    + congruence.
    + congruence.
    + intros HF. inversion HF; subst. constructor; auto.
    + constructor; assumption.
Qed.

(* ------------------------------------------------------------------------- *)
(** ** Invariants of whole runs *)
(* ------------------------------------------------------------------------- *)

Lemma update_cases s i g :
  let s' := fst (update s i g) in
  match state s with
  | MENU =>
      if pressed_SPACE i || pressed_ENTER i
      then s' = (let '(p, es, sc) := fst (ResetGame (gWeather s) (player s) ENEMY_COUNT g) in
                 mkGame PLAYING p es sc (bestScore s) (gWeather s))
      else s' = s
  | PLAYING => s' = fst (update_playing s i g)
  | GAME_OVER =>
      let s1 := if pressed_R i
                then (let '(p, es, sc) := fst (ResetGame (gWeather s) (player s) ENEMY_COUNT g) in
                      mkGame PLAYING p es sc (bestScore s) (gWeather s))
                else s in
      s' = if pressed_ESCAPE i
           then mkGame MENU (player s1) (enemies s1) (score s1) (bestScore s1) (gWeather s1)
           else s1
  end.
Proof.
  cbv zeta. unfold update. destruct (state s).
  - unfold update_menu. destruct (pressed_SPACE i || pressed_ENTER i); [|reflexivity].
    unfold bind. destruct (ResetGame _ _ _ g) as [[[p es] sc] g1]. reflexivity.
  - reflexivity.
  - unfold update_game_over, bind. destruct (pressed_R i).
    + destruct (ResetGame _ _ _ g) as [[[p es] sc] g1].
      destruct (pressed_ESCAPE i); reflexivity.
    + destruct (pressed_ESCAPE i); reflexivity.
Qed.

(** The game a reset builds, with its fields. *)
Lemma reset_game_fields st w p n g best w' :
  let s' := (let '(p', es, sc) := fst (ResetGame w p n g) in
             mkGame st p' es sc best w') in
  state s' = st /\ player s' = mkPlayer start_rect (speed p) /\
  enemies s' = fst (spawn_enemies (Z.to_nat n) w g) /\
  score s' = F32.of_int 0 /\ bestScore s' = best /\ gWeather s' = w'.
Proof.
  cbv zeta. destruct (ResetGame_fields w p n g) as (Hp & He & Hs). cbv zeta in *.
  destruct (fst (ResetGame w p n g)) as [[p' es] sc]. cbn in *. subst. repeat split.
Qed.

(** A property kept by [SetWeather] and by [update] on admissible inputs
    holds along every run. *)
Lemma run_invariant (P : Game -> Prop) (Q : Input -> Prop) :
  (forall s k, P s -> P (SetWeather k s)) ->
  (forall s i g, P s -> Q i -> P (fst (update s i g))) ->
  forall fs s g, P s -> Forall (fun f => Q (frame_input f)) fs ->
    P (fst (run s fs g)).
Proof.
  intros Hset Hupd fs. induction fs as [|f rest IH]; intros s g Hs Hfs.
  - exact Hs.
  - cbn [run]. unfold bind. inversion Hfs as [|f' rest' Hq Hrest]; subst.
    destruct (frame s f g) as [s1 g1] eqn:Hf.
    apply IH; [|assumption].
    unfold frame in Hf.
    replace s1 with (fst (update match weather_call f with
                                 | Some k => SetWeather k s | None => s end
                                 (frame_input f) g)) by (rewrite Hf; reflexivity).
    apply Hupd; [|assumption].
    destruct (weather_call f); [apply Hset|]; assumption.
Qed.

Lemma main_run_invariant (P : Game -> Prop) (Q : Input -> Prop) :
  (forall g, P (fst (initial g))) ->
  (forall s k, P s -> P (SetWeather k s)) ->
  (forall s i g, P s -> Q i -> P (fst (update s i g))) ->
  forall fs g, Forall (fun f => Q (frame_input f)) fs ->
    P (fst (main_run fs g)).
Proof.
  intros Hinit Hset Hupd fs g Hfs. unfold main_run, bind.
  specialize (Hinit g). destruct (initial g) as [s0 g0]. cbn [fst] in Hinit.
  apply (run_invariant P Q); assumption.
Qed.

Lemma initial_fields g :
  let s := fst (initial g) in
  state s = MENU /\ player s = fresh_player /\
  enemies s = fst (spawn_enemies 10 SUNNY g) /\
  score s = F32.of_int 0 /\ bestScore s = 0 /\ gWeather s = SUNNY.
Proof.
  cbv zeta. unfold initial, bind.
  pose proof (reset_game_fields MENU SUNNY
                (mkPlayer (mkRectangle (F32.of_int 0) (F32.of_int 0)
                                       (F32.of_int 0) (F32.of_int 0))
                          (F32.of_int 260)) ENEMY_COUNT g 0 SUNNY) as H.
  cbv zeta in H.
  destruct (ResetGame _ _ _ g) as [[[p es] sc] g1]. exact H.
Qed.

Lemma spawned_enemies_ok w n g :
  length (fst (spawn_enemies n w g)) = n /\
  Forall well_shaped (fst (spawn_enemies n w g)).
Proof.
  split; [apply spawn_enemies_length|].
  apply spawn_enemies_Forall. intros g0. apply spawn_enemy_shaped.
Qed.

Lemma update_enemies_ok s i g : enemies_ok s -> enemies_ok (fst (update s i g)).
Proof.
  intros [Hlen Hsh]. pose proof (update_cases s i g) as Hc. cbv zeta in Hc.
  assert (Hreset : forall st, enemies_ok
            (let '(p, es, sc) := fst (ResetGame (gWeather s) (player s) ENEMY_COUNT g) in
             mkGame st p es sc (bestScore s) (gWeather s))).
  { intros st.
    destruct (reset_game_fields st (gWeather s) (player s) ENEMY_COUNT g
                (bestScore s) (gWeather s)) as (_ & _ & He & _).
    unfold enemies_ok. rewrite He. apply spawned_enemies_ok. }
  destruct (state s).
  - destruct (pressed_SPACE i || pressed_ENTER i); rewrite Hc;
      [apply Hreset|split; assumption].
  - rewrite Hc.
    destruct (update_playing_fields s i g) as (He & _). cbv zeta in He.
    unfold enemies_ok. rewrite He.
    destruct (enemies_loop_enemies (rect (step_player (player s) i)) (frame_time i)
                (score s) (enemies s) (state s) (bestScore s) g)
      as (H1 & _ & _ & _ & H5 & _).
    split; [rewrite H1; assumption|apply H5; assumption].
  - rewrite Hc. destruct (pressed_R i), (pressed_ESCAPE i);
      try apply Hreset; try (split; assumption).
Qed.

(** X1.  In every state a run of [main] reaches, whatever the inputs, the
    weather calls and the random draws, there are exactly ten enemies, and
    each has an integral x in [0, max(760, 800 - width)], the integral size
    of its kind and a speed in the range of its kind. *)
Theorem run_keeps_ten_well_shaped_enemies fs g :
  let s := fst (main_run fs g) in
  length (enemies s) = 10%nat /\ Forall well_shaped (enemies s).
Proof.
  cbv zeta.
  apply (main_run_invariant enemies_ok (fun _ => True)).
  - intros g0. destruct (initial_fields g0) as (_ & _ & He & _).
    unfold enemies_ok. rewrite He. apply spawned_enemies_ok.
  - intros s k H. exact H.
  - intros s i g0 H _. apply update_enemies_ok. exact H.
  - apply Forall_forall. auto.
Qed.

Lemma to_int_range f : F32.INT_MIN <= F32.to_int f <= F32.INT_MAX.
Proof.
  unfold F32.to_int. destruct (F32.int_representable f) eqn:H.
  - destruct f as [s|s| |s m e]; try discriminate.
    + cbn. unfold F32.INT_MIN, F32.INT_MAX. lia.
    + unfold F32.int_representable in H. apply andb_true_iff in H.
      destruct H as [H1 H2]. apply Z.leb_le in H1, H2. lia.
  - unfold F32.INT_MIN, F32.INT_MAX. lia.
Qed.

Lemma update_best_ok s i g : best_ok s -> best_ok (fst (update s i g)).
Proof.
  unfold best_ok. intros Hb.
  pose proof (bestScore_monotone s i g) as Hmono.
  split; [lia|].
  pose proof (update_cases s i g) as Hc. cbv zeta in Hc.
  assert (Hreset : forall st, bestScore
            (let '(p, es, sc) := fst (ResetGame (gWeather s) (player s) ENEMY_COUNT g) in
             mkGame st p es sc (bestScore s) (gWeather s)) = bestScore s).
  { intros st. apply reset_game_fields. }
  destruct (state s).
  - destruct (pressed_SPACE i || pressed_ENTER i); rewrite Hc;
      [rewrite Hreset|]; lia.
  - destruct (update_playing_fields s i g) as (_ & _ & Hbest & _).
    cbv zeta in Hbest. rewrite Hc, Hbest.
    destruct (enemies_loop_spec (rect (step_player (player s) i)) (frame_time i)
                (score s) (enemies s) (state s) (bestScore s) g) as [Ht Hf].
    pose proof (to_int_range (score s)).
    destruct (existsb _ _).
    + destruct (Ht eq_refl) as [_ ->]. lia.
    + destruct (Hf eq_refl) as [_ ->]. lia.
  - rewrite Hc. destruct (pressed_R i), (pressed_ESCAPE i); cbn [bestScore];
      try rewrite Hreset; lia.
Qed.

Lemma run_bestScore_monotone fs : forall s g,
  bestScore s <= bestScore (fst (run s fs g)).
Proof.
  induction fs as [|f rest IH]; intros s g; [cbn; lia|].
  cbn [run]. unfold bind.
  destruct (frame s f g) as [s1 g1] eqn:Hf.
  specialize (IH s1 g1).
  assert (bestScore s <= bestScore s1); [|lia].
  unfold frame in Hf.
  replace s1 with (fst (update match weather_call f with
                               | Some k => SetWeather k s | None => s end
                               (frame_input f) g)) by (rewrite Hf; reflexivity).
  eapply Z.le_trans; [|apply bestScore_monotone].
  destruct (weather_call f); cbn; lia.
Qed.

(** X2.  In every state a run of [main] reaches the best score is between 0
    and [INT_MAX], and from any state on it never decreases. *)
Theorem best_score_along_runs fs g :
  0 <= bestScore (fst (main_run fs g)) <= F32.INT_MAX /\
  (forall s more g', bestScore s <= bestScore (fst (run s more g'))).
Proof.
  split.
  - apply (main_run_invariant best_ok (fun _ => True)).
    + intros g0. destruct (initial_fields g0) as (_ & _ & _ & _ & Hb & _).
      unfold best_ok. rewrite Hb. unfold F32.INT_MAX. lia.
    + intros s k H. exact H.
    + intros s i g0 H _. apply update_best_ok. exact H.
    + apply Forall_forall. auto.
  - intros s more g'. apply run_bestScore_monotone.
Qed.

Lemma fresh_player_ok sp :
  sp = F32.of_int 260 ->
  player_wf (mkPlayer start_rect sp) /\ inside_screen (rect (mkPlayer start_rect sp)).
Proof.
  intros ->. split.
  - unfold player_wf. repeat split.
  - unfold inside_screen. repeat split.
Qed.

Lemma update_player_ok s i g :
  player_ok s -> finite_time i -> player_ok (fst (update s i g)).
Proof.
  intros [Hwf Hin] Hdt. pose proof (update_cases s i g) as Hc. cbv zeta in Hc.
  assert (Hsp : speed (player s) = F32.of_int 260) by apply Hwf.
  assert (Hreset : forall st, player_ok
            (let '(p, es, sc) := fst (ResetGame (gWeather s) (player s) ENEMY_COUNT g) in
             mkGame st p es sc (bestScore s) (gWeather s))).
  { intros st.
    destruct (reset_game_fields st (gWeather s) (player s) ENEMY_COUNT g
                (bestScore s) (gWeather s)) as (_ & Hp & _).
    unfold player_ok. rewrite Hp. apply fresh_player_ok. exact Hsp. }
  destruct (state s).
  - destruct (pressed_SPACE i || pressed_ENTER i); rewrite Hc;
      [apply Hreset|split; assumption].
  - rewrite Hc.
    destruct (update_playing_fields s i g) as (_ & _ & _ & Hp & _). cbv zeta in Hp.
    unfold player_ok. rewrite Hp.
    destruct (step_player_clamped (player s) i Hwf Hdt). split; assumption.
  - rewrite Hc. destruct (pressed_R i), (pressed_ESCAPE i);
      try apply Hreset; try (split; assumption).
Qed.

(** X3.  Along a run whose frame times are finite numbers the player keeps
    its 36 by 36 box and speed 260, and its box lies in
    [0, SCREEN_W - width] x [0, SCREEN_H - height] in every state, menu and
    game over included. *)
Theorem run_keeps_player_on_screen fs g :
  Forall (fun f => F32.finite (frame_time (frame_input f)) = true) fs ->
  let s := fst (main_run fs g) in
  player_wf (player s) /\ inside_screen (rect (player s)).
Proof.
  intros Hfs. cbv zeta.
  apply (main_run_invariant player_ok finite_time).
  - intros g0. destruct (initial_fields g0) as (_ & Hp & _).
    unfold player_ok. rewrite Hp. apply fresh_player_ok. reflexivity.
  - intros s k H. exact H.
  - intros s i g0. apply update_player_ok.
  - exact Hfs.
Qed.

Lemma run_keeps_player_on_screen_witness :
  let s := fst (main_run three_frames (constant_rng 0)) in
  player_wf (player s) /\ inside_screen (rect (player s)).
Proof.
  apply (run_keeps_player_on_screen three_frames (constant_rng 0)).
  repeat constructor.
Defined.

Lemma sixty_dt_nonneg dt :
  F32.finite dt = true -> nonneg dt = true ->
  nonneg (F32.mul (F32.of_int 60) dt) = true.
Proof.
  intros Hf Hn. apply mul_nonneg; try assumption; reflexivity.
Qed.

Lemma update_score_ok s i g :
  score_ok s -> forward_time i -> score_ok (fst (update s i g)).
Proof.
  unfold score_ok. intros Hs [Hf Hn].
  pose proof (update_cases s i g) as Hc. cbv zeta in Hc.
  assert (Hreset : forall st, score
            (let '(p, es, sc) := fst (ResetGame (gWeather s) (player s) ENEMY_COUNT g) in
             mkGame st p es sc (bestScore s) (gWeather s)) = F32.of_int 0).
  { intros st. apply reset_game_fields. }
  destruct (state s).
  - destruct (pressed_SPACE i || pressed_ENTER i); rewrite Hc;
      [rewrite Hreset; reflexivity|assumption].
  - rewrite Hc.
    destruct (update_playing_fields s i g) as (_ & _ & _ & _ & Hsc & _).
    cbv zeta in Hsc. rewrite Hsc.
    apply add_nonneg; [assumption|apply sixty_dt_nonneg; assumption].
  - rewrite Hc. destruct (pressed_R i), (pressed_ESCAPE i); cbn [score];
      try rewrite Hreset; try assumption; reflexivity.
Qed.

(** X4.  Along a run whose frame times are finite and not negative the
    score is a non-negative number in every state (never a NaN, never below
    zero). *)
Theorem run_keeps_score_nonnegative fs g :
  Forall (fun f => F32.finite (frame_time (frame_input f)) = true /\
                   nonneg (frame_time (frame_input f)) = true) fs ->
  nonneg (score (fst (main_run fs g))) = true.
Proof.
  intros Hfs.
  apply (main_run_invariant score_ok forward_time).
  - intros g0. destruct (initial_fields g0) as (_ & _ & _ & Hs & _).
    unfold score_ok. rewrite Hs. reflexivity.
  - intros s k H. exact H.
  - intros s i g0. apply update_score_ok.
  - exact Hfs.
Qed.

Lemma run_keeps_score_nonnegative_witness :
  nonneg (score (fst (main_run three_frames (constant_rng 0)))) = true.
Proof.
  apply (run_keeps_score_nonnegative three_frames (constant_rng 0)).
  repeat constructor.
Defined.

(** X5.  A PLAYING frame with a finite, non-negative frame time never
    lowers a non-negative score: rounding [score + 60 * dt] cannot go below
    [score]. *)
Theorem playing_frame_never_lowers_score s i g :
  state s = PLAYING ->
  nonneg (score s) = true ->
  F32.finite (frame_time i) = true -> nonneg (frame_time i) = true ->
  F32.leb (score s) (score (fst (update s i g))) = true.
Proof.
  intros Hst Hs Hf Hn. unfold update. rewrite Hst.
  destruct (update_playing_fields s i g) as (_ & _ & _ & _ & Hsc & _).
  cbv zeta in Hsc. rewrite Hsc.
  apply add_nonneg; [assumption|apply sixty_dt_nonneg; assumption].
Qed.

Lemma playing_frame_never_lowers_score_witness :
  F32.leb (score colliding_run)
          (score (fst (update colliding_run (held true false true false one_64th)
                         (constant_rng 0)))) = true.
Proof.
  apply (playing_frame_never_lowers_score colliding_run
           (held true false true false one_64th) (constant_rng 0)); reflexivity.
Defined.

(* ------------------------------------------------------------------------- *)
(** ** Frames, one at a time *)
(* ------------------------------------------------------------------------- *)

(** X6.  A PLAYING frame after which no enemy overlaps the player stays in
    PLAYING and leaves the best score alone. *)
Theorem frame_without_overlap_keeps_playing s i g :
  state s = PLAYING ->
  let s' := fst (update s i g) in
  (forall e, In e (enemies s') ->
             CheckCollisionRecs (rect (player s')) (erect e) = false) ->
  state s' = PLAYING /\ bestScore s' = bestScore s.
Proof.
  intros Hst. cbv zeta. unfold update. rewrite Hst.
  destruct (update_playing_fields s i g) as (He & Hs & Hb & Hp & _).
  cbv zeta in He, Hs, Hb, Hp. rewrite Hp, He, Hs, Hb. intros Hno.
  destruct (enemies_loop_spec (rect (step_player (player s) i)) (frame_time i)
              (score s) (enemies s) (state s) (bestScore s) g) as [_ Hf].
  rewrite Hst in *. apply Hf.
  destruct (existsb _ _) eqn:Hex; [|reflexivity].
  apply existsb_exists in Hex. destruct Hex as [e [Hin Hhit]].
  unfold hits in Hhit. rewrite (Hno e Hin) in Hhit. discriminate.
Qed.

Lemma frame_without_overlap_witness :
  let s' := fst (update clear_run (held false false false false one_64th)
                   (constant_rng 0)) in
  state s' = PLAYING /\ bestScore s' = bestScore clear_run.
Proof.
  apply (frame_without_overlap_keeps_playing clear_run
           (held false false false false one_64th) (constant_rng 0)).
  - reflexivity.
  - intros e He.
    assert (Hes : enemies (fst (update clear_run
                                  (held false false false false one_64th)
                                  (constant_rng 0)))
                  = [fst (update_enemy one_64th fallen_enemy (constant_rng 0))])
      by (vm_compute; reflexivity).
    rewrite Hes in He. destruct He as [<-|[]]. vm_compute. reflexivity.
Defined.

(** X7.  The transitions of one frame.  From MENU the state becomes PLAYING
    exactly when SPACE or ENTER is pressed; from PLAYING it stays or becomes
    GAME_OVER, never MENU; from GAME_OVER, ESC leads to MENU (and wins over
    R), R alone to PLAYING, and anything else stays. *)
Theorem state_transitions s i g :
  let s' := fst (update s i g) in
  (state s = MENU ->
     state s' = if pressed_SPACE i || pressed_ENTER i then PLAYING else MENU) /\
  (state s = PLAYING -> state s' = PLAYING \/ state s' = GAME_OVER) /\
  (state s = GAME_OVER ->
     state s' = if pressed_ESCAPE i then MENU
                else if pressed_R i then PLAYING else GAME_OVER).
Proof.
  cbv zeta. pose proof (update_cases s i g) as Hc. cbv zeta in Hc.
  assert (Hreset : forall st, state
            (let '(p, es, sc) := fst (ResetGame (gWeather s) (player s) ENEMY_COUNT g) in
             mkGame st p es sc (bestScore s) (gWeather s)) = st).
  { intros st. apply reset_game_fields. }
  repeat split; intros Hst; rewrite Hst in Hc.
  - destruct (pressed_SPACE i || pressed_ENTER i); rewrite Hc;
      [apply Hreset|assumption].
  - rewrite Hc.
    destruct (update_playing_fields s i g) as (_ & Hs & _). cbv zeta in Hs.
    rewrite Hs.
    destruct (enemies_loop_spec (rect (step_player (player s) i)) (frame_time i)
                (score s) (enemies s) (state s) (bestScore s) g) as [Ht Hf].
    destruct (existsb _ _).
    + right. apply Ht. reflexivity.
    + left. rewrite <- Hst. apply Hf. reflexivity.
  - rewrite Hc. destruct (pressed_ESCAPE i), (pressed_R i); try reflexivity;
      try apply Hreset; assumption.
Qed.

(** X8.  Frames outside PLAYING keep the best score and the weather.  In
    PLAYING the weather changes only through the debug keys, F3 winning over
    F2 over F1.  A MENU frame without SPACE or ENTER changes nothing and
    draws nothing; a GAME_OVER frame without R keeps player, enemies and
    score and draws nothing, also when ESC leads back to the menu. *)
Theorem frames_outside_play_keep_best_and_weather s i g :
  let s' := fst (update s i g) in
  (state s <> PLAYING ->
     bestScore s' = bestScore s /\ gWeather s' = gWeather s) /\
  (state s = PLAYING ->
     gWeather s' = if pressed_F3 i then RAINY
                   else if pressed_F2 i then CLOUDY
                   else if pressed_F1 i then SUNNY else gWeather s) /\
  (state s = MENU -> pressed_SPACE i = false -> pressed_ENTER i = false ->
     update s i g = (s, g)) /\
  (state s = GAME_OVER -> pressed_R i = false ->
     player s' = player s /\ enemies s' = enemies s /\ score s' = score s /\
     snd (update s i g) = g).
Proof.
  cbv zeta. pose proof (update_cases s i g) as Hc. cbv zeta in Hc.
  assert (Hreset : forall st,
            let r := (let '(p, es, sc) := fst (ResetGame (gWeather s) (player s) ENEMY_COUNT g) in
                      mkGame st p es sc (bestScore s) (gWeather s)) in
            bestScore r = bestScore s /\ gWeather r = gWeather s).
  { intros st. cbv zeta.
    destruct (reset_game_fields st (gWeather s) (player s) ENEMY_COUNT g
                (bestScore s) (gWeather s)) as (_ & _ & _ & _ & Hb & Hw).
    split; assumption. }
  split; [|split; [|split]].
  - intros Hst. destruct (state s); [| congruence |].
    + destruct (pressed_SPACE i || pressed_ENTER i); rewrite Hc;
        [apply Hreset|split; reflexivity].
    + rewrite Hc. destruct (pressed_R i), (pressed_ESCAPE i); cbn [bestScore gWeather];
        try apply Hreset; split; reflexivity.
  - intros Hst. rewrite Hst in Hc. rewrite Hc.
    destruct (update_playing_fields s i g) as (_ & _ & _ & _ & _ & Hw).
    cbv zeta in Hw. rewrite Hw. unfold debug_weather.
    destruct (pressed_F3 i), (pressed_F2 i), (pressed_F1 i); reflexivity.
  - intros Hst Hsp Hen. unfold update, update_menu. rewrite Hst, Hsp, Hen.
    reflexivity.
  - intros Hst HR. unfold update, update_game_over, bind, ret. rewrite Hst, HR.
    destruct (pressed_ESCAPE i); cbn; auto.
Qed.

(* ------------------------------------------------------------------------- *)
(** ** More about ResetGame *)
(* ------------------------------------------------------------------------- *)

Lemma kind_sizes_height k w h : kind_sizes k w h -> 14 <= h <= 40.
Proof.
  unfold kind_sizes. destruct (k =? 2); [lia|]. destruct (k =? 1); lia.
Qed.

(** A spawned enemy ends above the player's start position: its bottom
    edge [y + height] is not below 380. *)
Lemma spawn_band_above_player yi h :
  - SCREEN_H <= yi <= -20 -> 14 <= h <= 40 ->
  F32.ltb (y start_rect) (F32.add (F32.of_int yi) (F32.of_int h)) = false.
Proof.
  intros Hy Hh.
  pose (P := fun yi => F32.all_from
     (fun h => negb (F32.ltb (y start_rect) (F32.add (F32.of_int yi) (F32.of_int h))))
     14 27).
  assert (H : P yi = true).
  { apply (all_from_spec P 431 (-450)); [vm_compute; reflexivity|unfold SCREEN_H in *; lia]. }
  unfold P in H.
  pose proof (all_from_spec _ _ _ H h ltac:(lia)) as Hh'. cbv beta in Hh'.
  apply negb_true_iff in Hh'. exact Hh'.
Qed.

(** X9.  Whatever the weather value, the count and the draws, no enemy
    [ResetGame] spawns overlaps the player it places: a run never starts in
    collision. *)
Theorem reset_never_spawns_on_player w p n g :
  let r := fst (ResetGame w p n g) in
  Forall (fun e => CheckCollisionRecs (rect (fst (fst r))) (erect e) = false)
         (snd (fst r)).
Proof.
  cbv zeta. destruct (ResetGame_fields w p n g) as (-> & -> & _).
  cbn [rect]. apply spawn_enemies_Forall. intros g0.
  destruct (spawn_enemy_form w g0) as (xi & yi & wd & h & sp & -> & Hx & Hy & Hsz & _).
  unfold CheckCollisionRecs. cbn [erect x y width height].
  rewrite (spawn_band_above_player yi h Hy (kind_sizes_height _ _ _ Hsz)).
  rewrite andb_false_l, andb_false_r. reflexivity.
Qed.

(** X10.  For every weather value [w] and count [n >= 0], [ResetGame]
    leaves [n] enemies, all of kind [w], at integral x in [0, 760] and
    integral y in [-450, -20], with the integral size and the speed range of
    the kind (rain for 2, cloud for 1, sun for every other value). *)
Theorem reset_spawns_by_weather w p n g :
  0 <= n ->
  let es := snd (fst (fst (ResetGame w p n g))) in
  Z.of_nat (length es) = n /\ Forall (spawned_as w) es.
Proof.
  intros Hn. cbv zeta. destruct (ResetGame_fields w p n g) as (_ & -> & _).
  split; [rewrite spawn_enemies_length; lia|].
  apply spawn_enemies_Forall. intros g0.
  destruct (spawn_enemy_form w g0) as (xi & yi & wd & h & sp & -> & Hx & Hy & Hsz & Hsp).
  split; [reflexivity|]. exists xi, yi, wd, h. cbn [erect speedY]. auto.
Qed.

Lemma reset_spawns_by_weather_witness :
  let es := snd (fst (fst (ResetGame CLOUDY fresh_player ENEMY_COUNT
                             (constant_rng 9)))) in
  Z.of_nat (length es) = ENEMY_COUNT /\ Forall (spawned_as CLOUDY) es.
Proof.
  apply (reset_spawns_by_weather CLOUDY fresh_player ENEMY_COUNT (constant_rng 9)).
  unfold ENEMY_COUNT. lia.
Defined.

Lemma GetRandomValue_rng lo hi g :
  snd (GetRandomValue lo hi g) = mkRng (draws g) (S (cursor g)).
Proof. reflexivity. Qed.

Lemma spawn_enemy_rng w g :
  snd (spawn_enemy w g) = mkRng (draws g) (draws_per_enemy w + cursor g).
Proof.
  unfold spawn_enemy, draws_per_enemy, rain_speed, cloud_speed, sun_speed, bind, ret,
    GetRandomValue.
  destruct (w =? 2); [|destruct (w =? 1)]; cbn; reflexivity.
Qed.

Lemma spawn_enemies_rng w n : forall g,
  snd (spawn_enemies n w g) = mkRng (draws g) (n * draws_per_enemy w + cursor g).
Proof.
  induction n as [|n IH]; intros g.
  - destruct g; reflexivity.
  - cbn [spawn_enemies]. unfold bind, ret.
    pose proof (spawn_enemy_rng w g) as H1.
    destruct (spawn_enemy w g) as [e g1]. cbn [snd] in H1. subst g1.
    specialize (IH (mkRng (draws g) (draws_per_enemy w + cursor g))).
    destruct (spawn_enemies n w _) as [es g2]. cbn [snd draws cursor] in *.
    rewrite IH. f_equal. lia.
Qed.

(** X11.  [ResetGame] calls [GetRandomValue] five times per enemy in rain
    and cloud and four times otherwise, and does nothing else to the
    generator. *)
Theorem reset_consumes_fixed_number_of_draws w p n g :
  snd (ResetGame w p n g)
  = mkRng (draws g) (Z.to_nat n * draws_per_enemy w + cursor g).
Proof.
  unfold ResetGame, bind, ret.
  pose proof (spawn_enemies_rng w (Z.to_nat n) g) as H.
  destruct (spawn_enemies (Z.to_nat n) w g) as [es g1]. exact H.
Qed.

(** X12.  A PLAYING frame keeps the number of enemies and, slot by slot,
    their kinds, widths and heights, whatever the weather has become; and it
    leaves no enemy below the recycling line [SCREEN_H + 10]. *)
Theorem play_keeps_enemy_slots s i g :
  state s = PLAYING ->
  let s' := fst (update s i g) in
  length (enemies s') = length (enemies s) /\
  map kind (enemies s') = map kind (enemies s) /\
  map (fun e => width (erect e)) (enemies s')
    = map (fun e => width (erect e)) (enemies s) /\
  map (fun e => height (erect e)) (enemies s')
    = map (fun e => height (erect e)) (enemies s) /\
  Forall (fun e => below_bottom e = false) (enemies s').
Proof.
  intros Hst. cbv zeta. unfold update. rewrite Hst.
  destruct (update_playing_fields s i g) as (He & _). cbv zeta in He. rewrite He.
  destruct (enemies_loop_enemies (rect (step_player (player s) i)) (frame_time i)
              (score s) (enemies s) PLAYING (bestScore s) g)
    as (H1 & H2 & H3 & H4 & _ & H6).
  rewrite Hst. auto.
Qed.

Lemma play_keeps_enemy_slots_witness :
  let s' := fst (update clear_run (held false false false false one_64th)
                   (constant_rng 0)) in
  length (enemies s') = length (enemies clear_run) /\
  map kind (enemies s') = map kind (enemies clear_run) /\
  map (fun e => width (erect e)) (enemies s')
    = map (fun e => width (erect e)) (enemies clear_run) /\
  map (fun e => height (erect e)) (enemies s')
    = map (fun e => height (erect e)) (enemies clear_run) /\
  Forall (fun e => below_bottom e = false) (enemies s').
Proof.
  apply (play_keeps_enemy_slots clear_run
           (held false false false false one_64th) (constant_rng 0)).
  reflexivity.
Defined.

(** X13.  Unless the held keys give a diagonal, normalising changes
    nothing: the direction is the raw vector, each component is a zero or
    exactly plus or minus one, and one of them is a zero. *)
Theorem normalisation_only_changes_diagonals i :
  diagonal i = false ->
  direction i = raw_direction i /\
  (F32.is_zero (vx (direction i)) = true \/ SFabs (vx (direction i)) = F32.of_int 1) /\
  (F32.is_zero (vy (direction i)) = true \/ SFabs (vy (direction i)) = F32.of_int 1) /\
  (F32.is_zero (vx (direction i)) = true \/ F32.is_zero (vy (direction i)) = true).
Proof.
  unfold diagonal, direction, raw_direction.
  destruct (down_RIGHT i || down_D i), (down_LEFT i || down_A i),
           (down_DOWN i || down_S i), (down_UP i || down_W i);
    try discriminate; intros _; vm_compute;
    repeat split; auto.
Qed.

Lemma normalisation_only_changes_diagonals_witness :
  let i := held true false false false one_64th in
  direction i = raw_direction i /\
  (F32.is_zero (vx (direction i)) = true \/ SFabs (vx (direction i)) = F32.of_int 1) /\
  (F32.is_zero (vy (direction i)) = true \/ SFabs (vy (direction i)) = F32.of_int 1) /\
  (F32.is_zero (vx (direction i)) = true \/ F32.is_zero (vy (direction i)) = true).
Proof.
  apply (normalisation_only_changes_diagonals (held true false false false one_64th)).
  reflexivity.
Defined.

(* ------------------------------------------------------------------------- *)
(** ** The clamp from inside, and the idle player *)
(* ------------------------------------------------------------------------- *)

Lemma clamp_rect_inside r :
  width r = F32.of_int 36 -> height r = F32.of_int 36 ->
  F32.finite (x r) = true -> F32.finite (y r) = true ->
  inside_screen r -> clamp_rect r = r.
Proof.
  destruct r as [rx ry rw rh]. cbn [x y width height].
  intros -> -> Hfx Hfy (Hx0 & Hx1 & Hy0 & Hy1). cbn [x y width height] in *.
  unfold clamp_rect. cbn [x y width height].
  pose proof (clamp_axis_inside rx 4 589824 12517376) as Cx.
  pose proof (clamp_axis_inside ry 3 1179648 13565952) as Cy.
  cbv zeta in Cx, Cy.
  f_equal.
  - apply Cx; try lia; try assumption; reflexivity.
  - apply Cy; try lia; try assumption; reflexivity.
Qed.

(** X14.  For a 36 by 36 box whose coordinates are numbers, the clamp
    returns a box inside the screen, clamping again changes nothing, and a
    box that is already inside the screen at a finite position is returned as
    it is. *)
Theorem clamp_is_idempotent r :
  width r = F32.of_int 36 -> height r = F32.of_int 36 ->
  F32.number (x r) = true -> F32.number (y r) = true ->
  inside_screen (clamp_rect r) /\
  clamp_rect (clamp_rect r) = clamp_rect r /\
  (F32.finite (x r) = true -> F32.finite (y r) = true ->
   inside_screen r -> clamp_rect r = r).
Proof.
  intros Hw Hh Hx Hy.
  assert (Hin : inside_screen (clamp_rect r) /\
                F32.finite (x (clamp_rect r)) = true /\
                F32.finite (y (clamp_rect r)) = true).
  { destruct r as [rx ry rw rh]. cbn [x y width height] in *. subst rw rh.
    unfold inside_screen, clamp_rect. cbn [x y width height].
    pose proof (clamp_axis rx 4 589824 12517376) as Cx.
    pose proof (clamp_axis ry 3 1179648 13565952) as Cy.
    cbv zeta in Cx, Cy.
    destruct Cx as (Cx1 & Cx2 & Cx3); try lia; try assumption; try reflexivity.
    destruct Cy as (Cy1 & Cy2 & Cy3); try lia; try assumption; try reflexivity.
    repeat split; assumption. }
  destruct Hin as (Hin & Hfx & Hfy).
  split; [exact Hin|]. split.
  - apply clamp_rect_inside; assumption.
  - intros Hfx' Hfy' Hin'. apply clamp_rect_inside; assumption.
Qed.

Lemma clamp_is_idempotent_witness :
  let r := mkRectangle (F32.of_int 900) (F32.of_int (-5))
                       (F32.of_int 36) (F32.of_int 36) in
  inside_screen (clamp_rect r) /\
  clamp_rect (clamp_rect r) = clamp_rect r /\
  (F32.finite (x r) = true -> F32.finite (y r) = true ->
   inside_screen r -> clamp_rect r = r).
Proof.
  apply (clamp_is_idempotent (mkRectangle (F32.of_int 900) (F32.of_int (-5))
                                          (F32.of_int 36) (F32.of_int 36)));
    reflexivity.
Defined.

Lemma mul_zero_l s b :
  F32.finite b = true -> F32.is_zero (F32.mul (S754_zero s) b) = true.
Proof. destruct b; try discriminate; reflexivity. Qed.

Lemma add_zero_shape v z :
  F32.finite v = true -> F32.is_zero z = true ->
  F32.add v z = v \/ (F32.is_zero v = true /\ F32.is_zero (F32.add v z) = true).
Proof.
  destruct z as [sz| | |]; try discriminate.
  destruct v as [s|s| |s m e]; try discriminate; intros _ _.
  - right. destruct s, sz; split; reflexivity.
  - left. reflexivity.
Qed.

Lemma zero_inside hi v :
  F32.is_zero v = true -> F32.leb (S754_zero false) hi = true ->
  F32.finite v = true /\ F32.leb (S754_zero false) v = true /\ F32.leb v hi = true.
Proof.
  destruct v as [s| | |]; try discriminate. intros _ H.
  repeat split. destruct hi as [sh|sh| |sh mh eh]; try discriminate; try reflexivity;
    destruct sh; try discriminate; reflexivity.
Qed.

(** X15.  In a PLAYING frame in which no direction results from the keys
    (nothing held, or opposite keys held together), with a finite frame time,
    a player inside the screen keeps its position and size. *)
Theorem idle_player_stays_in_place s i g :
  state s = PLAYING ->
  player_wf (player s) -> inside_screen (rect (player s)) ->
  no_direction i = true ->
  F32.finite (frame_time i) = true ->
  let s' := fst (update s i g) in
  F32.eqb (x (rect (player s'))) (x (rect (player s))) = true /\
  F32.eqb (y (rect (player s'))) (y (rect (player s))) = true /\
  width (rect (player s')) = width (rect (player s)) /\
  height (rect (player s')) = height (rect (player s)).
Proof.
  intros Hst (Hw & Hh & Hsp & Hfx & Hfy) (Hx0 & Hx1 & Hy0 & Hy1) Hno Hdt.
  cbv zeta. unfold update. rewrite Hst.
  destruct (update_playing_fields s i g) as (_ & _ & _ & -> & _).
  unfold step_player. cbn [rect].
  destruct (no_direction_skips i Hno) as [Hraw Hdir].
  rewrite Hdir, Hraw, Hsp. unfold displacement. cbn [vx vy].
  change (F32.mul (F32.of_int 0) (F32.of_int 260)) with (S754_zero false).
  pose proof (mul_zero_l false (frame_time i) Hdt) as Hz.
  set (z := F32.mul (S754_zero false) (frame_time i)) in *.
  set (r := rect (player s)) in *.
  assert (Hmx : F32.finite (F32.add (x r) z) = true /\
                F32.leb (F32.of_int 0) (F32.add (x r) z) = true /\
                F32.leb (F32.add (x r) z) (F32.sub (F32.of_int SCREEN_W) (width r)) = true).
  { destruct (add_zero_shape (x r) z Hfx Hz) as [->|[_ Hzz]]; [auto|].
    apply zero_inside; [assumption|]. rewrite Hw. reflexivity. }
  assert (Hmy : F32.finite (F32.add (y r) z) = true /\
                F32.leb (F32.of_int 0) (F32.add (y r) z) = true /\
                F32.leb (F32.add (y r) z) (F32.sub (F32.of_int SCREEN_H) (height r)) = true).
  { destruct (add_zero_shape (y r) z Hfy Hz) as [->|[_ Hzz]]; [auto|].
    apply zero_inside; [assumption|]. rewrite Hh. reflexivity. }
  rewrite clamp_rect_inside.
  - unfold move_rect. cbn [x y width height].
    repeat split; apply add_zero_r; assumption.
  - exact Hw.
  - exact Hh.
  - apply Hmx.
  - apply Hmy.
  - unfold inside_screen, move_rect. cbn [x y width height].
    repeat split; try apply Hmx; apply Hmy.
Qed.

Lemma idle_player_stays_in_place_witness :
  let s' := fst (update colliding_run (held true true false false one_64th)
                   (constant_rng 0)) in
  F32.eqb (x (rect (player s'))) (x (rect (player colliding_run))) = true /\
  F32.eqb (y (rect (player s'))) (y (rect (player colliding_run))) = true /\
  width (rect (player s')) = width (rect (player colliding_run)) /\
  height (rect (player s')) = height (rect (player colliding_run)).
Proof.
  apply (idle_player_stays_in_place colliding_run
           (held true true false false one_64th) (constant_rng 0)).
  - reflexivity.
  - unfold player_wf. repeat split; reflexivity.
  - unfold inside_screen. repeat split; reflexivity.
  - reflexivity.
  - reflexivity.
Defined.

(* ------------------------------------------------------------------------- *)
(** ** The weather label against the spawned shapes *)
(* ------------------------------------------------------------------------- *)

(** Among the integral widths that are drawn, only 18..30 convert to a
    float in the sun range. *)
Lemma sun_width_inv v :
  3 <= v <= 72 -> F32.between 18 30 (F32.of_int v) = true -> 18 <= v <= 30.
Proof.
  intros Hv Hb.
  pose (P := fun v => implb (F32.between 18 30 (F32.of_int v))
                            ((18 <=? v) && (v <=? 30))).
  assert (H : P v = true).
  { apply (all_from_spec P 70 3); [vm_compute; reflexivity|lia]. }
  unfold P in H. rewrite Hb in H. cbn [implb] in H.
  apply andb_true_iff in H. destruct H as [H1 H2].
  apply Z.leb_le in H1, H2. lia.
Qed.

Module HudFacts.
Import String.

(** X16.  The label names the shape that is spawned: for every weather
    value and generator state, [WeatherName] is "Sunny" exactly when
    [ResetGame] spawns a sun disc, "Cloudy" exactly when it spawns a cloud
    and "Rainy" exactly when it spawns a rain drop.  For a value outside
    {0, 1, 2} the label is the sunny one although the background is not. *)
Theorem label_names_the_spawned_shape w g :
  let e := fst (spawn_enemy w g) in
  (Hud.WeatherName w = "Sunny"%string <-> sun_disc w e) /\
  (Hud.WeatherName w = "Cloudy"%string <-> cloud e) /\
  (Hud.WeatherName w = "Rainy"%string <-> rain_drop e) /\
  (~ 0 <= w <= 2 ->
     Hud.WeatherName w = Hud.WeatherName SUNNY /\
     Hud.background w <> Hud.background SUNNY).
Proof.
  cbv zeta.
  destruct (spawn_enemy_form w g)
    as (xi & yi & wd & h & sp & He & Hx & Hy & Hsz & Hsp).
  pose proof (spawn_enemy_default w g) as Hsun.
  rewrite He in *. clear He.
  unfold Hud.WeatherName, Hud.background, sun_disc, cloud, rain_drop,
    kind_sizes, kind_speed_range_ok, CLOUDY, RAINY, SUNNY in *.
  cbn [erect width height speedY kind] in *.
  destruct (Z.eqb_spec w 2) as [H2|H2]; [|destruct (Z.eqb_spec w 1) as [H1|H1]].
  - subst w. cbn [Z.eqb Pos.eqb].
    split; [split; [discriminate|]|].
    { intros (Hw & _). apply sun_width_inv in Hw; lia. }
    split; [split; [discriminate|intros (_ & _ & _ & Hk); discriminate]|].
    split; [|intros; lia].
    split; [intros _|reflexivity].
    repeat split; try assumption; apply between_of_int; lia.
  - subst w. cbn [Z.eqb Pos.eqb].
    split; [split; [discriminate|]|].
    { intros (Hw & _). apply sun_width_inv in Hw; lia. }
    split; [|split; [split; [discriminate|intros (_ & _ & _ & Hk); discriminate]|intros; lia]].
    split; [intros _|reflexivity].
    repeat split; try assumption; apply between_of_int; lia.
  - destruct (Z.eqb_spec w 1) as [|_]; [contradiction|].
    split; [split; [intros _; apply Hsun; assumption|reflexivity]|].
    split; [split; [discriminate|intros (_ & _ & _ & Hk); contradiction]|].
    split; [split; [discriminate|intros (_ & _ & _ & Hk); contradiction]|].
    intros Hw.
    destruct (Z.eqb_spec w 0); [lia|].
    split; [reflexivity|]. cbn. discriminate.
Qed.

End HudFacts.
